(** * Polynomial regression: the numerical core of the function finder

    A shallow embedding of [solveLinearSystem], [calculatePolynomialRegression],
    [evaluatePolynomial] and [findBestFitPolynomial] (regressionService), of
    the fitting branch of [handleTrain] (App.tsx) and of the formula display
    [PrettyFormula].

    Numbers.  The code is embedded twice.  In the first embedding a
    JavaScript [number] is an exact rational [Qc]: the arithmetic is the
    ideal one, without rounding, overflow or NaN, and the two infinities
    that the degree sweep uses as scores are constructors of their own
    ([score]).  It carries the statements about the control flow: which
    turn throws, which objects are written, which degree the sweep keeps
    once a perfect fit is reached, what the formula display shows.  In
    the second embedding, the module [Double], a [number] is what the
    program computes with, an IEEE 754 binary64 value (a primitive
    [float]).  It carries the statements about the values computed and
    the runs in which rounding, overflow or NaN decide the outcome.
    [Math.log] and, on doubles, [Math.pow] are parameters. *)

From Stdlib Require Import Floats QArith Qcanon Qcabs Qround ZArith String Ascii
  DecimalString Lia.
From stdpp Require Import base option list numbers sorting.

(** A decimal literal denotes the nearest double, as in JavaScript. *)
#[local] Set Warnings "-inexact-float".

Local Open Scope Qc_scope.

(** ** Thrown errors

    The code throws plain [Error] objects; an error is its message.  The
    three messages of the regression service carry the names the
    specification gives to the error kinds. *)

Definition SingularMatrixError : string :=
  "Matrix is singular. Cannot solve. Try a lower polynomial degree or different data.".
Definition InsufficientDataError : string :=
  "Not enough data points to find a best-fit polynomial (requires at least 2).".
Definition NoModelFoundError : string :=
  "Could not determine a best-fit model for the given data.".

Inductive result (A : Type) : Type :=
  | Ok (a : A)
  | Err (message : string).
Arguments Ok {A} a.
Arguments Err {A} message.

Definition bind {A B} (r : result A) (k : A → result B) : result B :=
  match r with
  | Ok a => k a
  | Err e => Err e
  end.

Notation "x <- r ;; k" := (bind r (fun x => k))
  (at level 100, r at next level, right associativity).

(** [for (const i of ks) { st = body(st, i) }] where the body may throw. *)
Fixpoint forM {S : Type} (body : S → nat → result S) (ks : list nat) (st : S)
  : result S :=
  match ks with
  | [] => Ok st
  | i :: rest => st' <- body st i ;; forM body rest st'
  end.

(** [for (let k = lo; k < hi; k++)] visits [range lo hi]. *)
Definition range (lo hi : nat) : list nat := seq lo (hi - lo).

(** ** Matrices as arrays of rows *)

Abbreviation matrix := (list (list Qc)).

(** [m[r][c]].  On the n x (n+1) augmented matrix every read of the solver
    is in range.  Outside the range JavaScript reads [undefined], which the
    rational model does not have; the model reads 0 there, and the
    statements about the values computed assume an n x n matrix and a
    right-hand side of length n. *)
Definition entry (m : matrix) (r c : nat) : Qc :=
  default 0 (m !! r ≫= (.!! c)).

(** [m[r][c] = v], for [c] within the row (the solver never writes
    elsewhere on an n x (n+1) matrix; JavaScript would extend the row). *)
Definition set_entry (m : matrix) (r c : nat) (v : Qc) : matrix :=
  alter (<[c := v]>) r m.

(** ** solveLinearSystem *)

Definition tolerance : Qc := Q2Qc 1e-10.

(** [m[i] = [...matrixA[i], vectorB[i]]] for every row: a copy of the row
    with the entry of [vectorB] appended. *)
Definition augment (matrixA : matrix) (vectorB : list Qc) : matrix :=
  imap (λ i row, row ++ [default 0 (vectorB !! i)]) matrixA.

(** The pivot search: [maxRow] starts at [i] and moves to [k] whenever
    [|m[k][i]| > |m[maxRow][i]|]. *)
Definition findPivot (n : nat) (m : matrix) (i : nat) : nat :=
  fold_left
    (λ maxRow k,
       if bool_decide (Qcabs (entry m maxRow i) < Qcabs (entry m k i))
       then k else maxRow)
    (range (i + 1) n) i.

(** [[m[i], m[maxRow]] = [m[maxRow], m[i]]]: both rows are read, then
    [m[i]] and [m[maxRow]] are written in that order. *)
Definition swapRows {A} (m : list A) (i maxRow : nat) : list A :=
  match m !! maxRow, m !! i with
  | Some rowMax, Some rowI => <[maxRow := rowI]> (<[i := rowMax]> m)
  | _, _ => m
  end.

(** [for k in i+1 .. n: m[i][k] /= m[i][i]], then [m[i][i] = 1]. *)
Definition makePivotOne (n : nat) (m : matrix) (i : nat) : matrix :=
  let m1 :=
    fold_left (λ m k, set_entry m i k (entry m i k / entry m i i))
              (range (i + 1) (n + 1)) m in
  set_entry m1 i i 1.

(** [const factor = m[k][i]; for j in i .. n: m[k][j] -= factor * m[i][j]] *)
Definition eliminateRow (n : nat) (i : nat) (m : matrix) (k : nat) : matrix :=
  let factor := entry m k i in
  fold_left (λ m j, set_entry m k j (entry m k j - factor * entry m i j))
            (range i (n + 1)) m.

Definition eliminateOtherRows (n : nat) (m : matrix) (i : nat) : matrix :=
  fold_left (λ m k, if decide (k ≠ i) then eliminateRow n i m k else m)
            (range 0 n) m.

(** One turn of the main loop, for pivot column [i]. *)
Definition eliminateColumn (n : nat) (m : matrix) (i : nat) : result matrix :=
  let maxRow := findPivot n m i in
  let m := swapRows m i maxRow in
  if bool_decide (Qcabs (entry m i i) < tolerance)
  then Err SingularMatrixError
  else Ok (eliminateOtherRows n (makePivotOne n m i) i).

(** The augmented matrix after the pivot columns [0 .. i-1]. *)
Definition eliminated (matrixA : matrix) (vectorB : list Qc) (i : nat)
  : result matrix :=
  forM (eliminateColumn (length matrixA)) (range 0 i) (augment matrixA vectorB).

Definition solveLinearSystem (matrixA : matrix) (vectorB : list Qc)
  : result (list Qc) :=
  let n := length matrixA in
  m <- eliminated matrixA vectorB n ;;
  Ok (map (λ i, entry m i n) (range 0 n)).

(** ** calculatePolynomialRegression *)

Record Point : Type := mkPoint { x : Qc; y : Qc }.

(** A count ([points.length], [degree + 1]) used as a number. *)
Definition ofNat (k : nat) : Qc := Q2Qc (inject_Z (Z.of_nat k)).

(** [X[i][j] = Math.pow(points[i].x, j)], one row of [n] powers per point. *)
Definition designMatrix (points : list Point) (n : nat) : matrix :=
  map (λ p, map (λ j, Qcpower (x p) j) (range 0 n)) points.

(** [Xt[i][j] = X[j][i]] *)
Definition transpose (n numPoints : nat) (X : matrix) : matrix :=
  map (λ i, map (λ j, entry X j i) (range 0 numPoints)) (range 0 n).

(** [XtX[i][j] = sum over k of Xt[i][k] * X[k][j]] *)
Definition gramMatrix (n numPoints : nat) (Xt X : matrix) : matrix :=
  map (λ i, map (λ j,
         fold_left (λ sum k, sum + entry Xt i k * entry X k j)
                   (range 0 numPoints) 0)
       (range 0 n))
      (range 0 n).

(** [XtY[i] = sum over j of Xt[i][j] * Y[j]] *)
Definition momentVector (n numPoints : nat) (Xt : matrix) (Y : list Qc)
  : list Qc :=
  map (λ i, fold_left (λ sum j, sum + entry Xt i j * default 0 (Y !! j))
                      (range 0 numPoints) 0)
      (range 0 n).

Definition calculatePolynomialRegression (points : list Point) (degree : nat)
  : result (list Qc) :=
  let n := (degree + 1)%nat in
  let numPoints := length points in
  let X := designMatrix points n in
  let Y := map y points in
  let Xt := transpose n numPoints X in
  let XtX := gramMatrix n numPoints Xt X in
  let XtY := momentVector n numPoints Xt Y in
  solveLinearSystem XtX XtY.

(** ** evaluatePolynomial *)

Definition evaluatePolynomial (coefficients : list Qc) (x : Qc) : Qc :=
  fold_left (λ result i, result + default 0 (coefficients !! i) * Qcpower x i)
            (range 0 (length coefficients)) 0.

(** ** findBestFitPolynomial *)

Inductive AutoFitMethod : Type := BIC | AIC.

(** The values [bestScore] takes: [Infinity] at the start, [-Infinity] for
    an accepted perfect fit, a number otherwise. *)
Inductive score : Type :=
  | NegInfinity
  | Finite (s : Qc)
  | Infinity.

(** [score < bestScore] for a numeric [score]. *)
Definition lessThan (s : Qc) (best : score) : bool :=
  match best with
  | NegInfinity => false
  | Finite b => bool_decide (s < b)
  | Infinity => true
  end.

(** The object the function returns. *)
Record BestFit : Type := mkBestFit { bestDegree : Z; coefficients : list Qc }.

Module Sweep.
(** The three local variables the loop updates. *)
Record state : Type := mkState {
  bestScore : score;
  bestDegree : Z;
  bestCoefficients : list Qc
}.

Definition initial : state :=
  {| bestScore := Infinity; bestDegree := -1; bestCoefficients := [] |}.
End Sweep.

(** The loop that accumulates the residual sum of squares of a fit. *)
Definition residualSumOfSquares (points : list Point) (coefficients : list Qc)
  : Qc :=
  fold_left
    (λ rss point,
       let predictedY := evaluatePolynomial coefficients (x point) in
       rss + Qcpower (y point - predictedY) 2)
    points 0.

Section FindBestFit.
(** [Math.log] *)
Variable log : Qc → Qc.

Definition criterion (method : AutoFitMethod) (n : nat) (rss : Qc) (degree : nat)
  : Qc :=
  let k := (degree + 1)%nat in
  match method with
  | AIC => ofNat n * log (rss / ofNat n) + 2 * ofNat k
  | BIC => ofNat n * log (rss / ofNat n) + ofNat k * log (ofNat n)
  end.

(** The body of the sweep for one degree.  The [catch] branch only writes
    a warning to the console and leaves the three variables as they are. *)
Definition tryDegree (points : list Point) (method : AutoFitMethod)
    (st : Sweep.state) (degree : nat) : Sweep.state :=
  match calculatePolynomialRegression points degree with
  | Err _ => st
  | Ok coefficients =>
      let rss := residualSumOfSquares points coefficients in
      if bool_decide (rss ≤ tolerance) then
        if bool_decide (Sweep.bestDegree st = -1)%Z
        then Sweep.mkState NegInfinity (Z.of_nat degree) coefficients
        else st
      else
        let score := criterion method (length points) rss degree in
        if lessThan score (Sweep.bestScore st)
        then Sweep.mkState (Finite score) (Z.of_nat degree) coefficients
        else st
  end.

(** [for (let degree = ...; degree <= maxDegreeToTest; degree++)], with the
    number of remaining turns as fuel. *)
Fixpoint sweepFrom (points : list Point) (method : AutoFitMethod)
    (maxDegreeToTest : Z) (fuel : nat) (degree : nat) (st : Sweep.state)
  : Sweep.state :=
  match fuel with
  | O => st
  | S fuel' =>
      if bool_decide (Z.of_nat degree ≤ maxDegreeToTest)%Z
      then sweepFrom points method maxDegreeToTest fuel' (S degree)
                     (tryDegree points method st degree)
      else st
  end.

(** The default ['BIC'] of [method] is left to the caller. *)
Definition findBestFitPolynomial (points : list Point) (method : AutoFitMethod)
  : result BestFit :=
  let n := length points in
  let maxDegreeToTest := Z.min 20 (Z.of_nat n - 1) in
  if bool_decide (maxDegreeToTest < 1)%Z then Err InsufficientDataError
  else
    let st := sweepFrom points method maxDegreeToTest
                        (Z.to_nat maxDegreeToTest) 1 Sweep.initial in
    if bool_decide (Sweep.bestDegree st = -1)%Z then Err NoModelFoundError
    else Ok {| bestDegree := Sweep.bestDegree st;
               coefficients := Sweep.bestCoefficients st |}.
End FindBestFit.

(** ** The messages of handleTrain

    The handler itself is embedded on doubles, [Double.handleTrain]. *)

Definition natToString (k : nat) : string :=
  NilZero.string_of_uint (Nat.to_uint k).

Definition AutoModeError : string :=
  "Please provide at least 2 data points for auto mode.".

Definition ExplicitModeError (selectedDegree : nat) : string :=
  ("Please provide at least " ++ natToString (selectedDegree + 1)
   ++ " data points for a degree " ++ natToString selectedDegree
   ++ " polynomial.")%string.

(** ** PrettyFormula *)

(** *** The two number formats

    [q.toExponential(2)] and the text React shows for
    [Number(q.toPrecision(3))], for a positive rational [q].  Both round
    [q] to three significant decimal digits, half up. *)

Definition zToString (z : Z) : string :=
  NilZero.string_of_uint (N.to_uint (Z.to_N z)).

Definition decimalDigits (z : Z) : Z := Z.of_nat (String.length (zToString z)).

(** The [e] with [10^e <= q < 10^(e+1)]. *)
Definition decimalExponent (q : Q) : Z :=
  let guess := (decimalDigits (Qnum q) - decimalDigits (Zpos (Qden q)))%Z in
  if Qle_bool (Qpower 10 guess) q then guess else (guess - 1)%Z.

(** Three significant digits [100 <= n <= 999] and the exponent of the
    leading one, after rounding. *)
Definition threeDigits (q : Q) : Z * Z :=
  let e := decimalExponent q in
  let n := Qfloor (q * Qpower 10 (2 - e) + (1 # 2))%Q in
  if (n =? 1000)%Z then (100%Z, (e + 1)%Z) else (n, e).

Definition exponentSuffix (e : Z) : string :=
  ("e" ++ (if (0 <=? e)%Z then "+" else "-") ++ zToString (Z.abs e))%string.

Definition toExponential2 (q : Qc) : string :=
  if bool_decide (q = 0) then "0.00e+0"%string
  else
    let '(n, e) := threeDigits (this q) in
    let s := zToString n in
    (substring 0 1 s ++ "." ++ substring 1 2 s ++ exponentSuffix e)%string.

Definition stripZeros (n : Z) : Z :=
  if (n mod 100 =? 0)%Z then (n / 100)%Z
  else if (n mod 10 =? 0)%Z then (n / 10)%Z
  else n.

Definition zeros (k : nat) : string := string_of_list_ascii (replicate k "0"%char).

Definition toPrecision3Number (q : Qc) : string :=
  if bool_decide (q = 0) then "0"%string
  else
    let '(n, e) := threeDigits (this q) in
    let s := zToString (stripZeros n) in
    let k := Z.of_nat (String.length s) in
    let p := (e + 1)%Z in
    if (k <=? p)%Z then (s ++ zeros (Z.to_nat (p - k)))%string
    else if (0 <? p)%Z then
      (substring 0 (Z.to_nat p) s ++ "."
       ++ substring (Z.to_nat p) (Z.to_nat (k - p)) s)%string
    else if (-6 <? p)%Z then ("0." ++ zeros (Z.to_nat (- p)) ++ s)%string
    else if (k =? 1)%Z then (s ++ exponentSuffix (p - 1))%string
    else (substring 0 1 s ++ "." ++ substring 1 (Z.to_nat (k - 1)) s
          ++ exponentSuffix (p - 1))%string.

(** *** The elements of the formula *)

Local Close Scope Qc_scope.

(** The four kinds of element pushed to [parts], each with the power that
    its [key] carries. *)
Inductive part : Type :=
  | Sign (power : nat) (className : string) (text : string)
      (* <span key=sign-power className=...>text</span> *)
  | Coeff (power : nat) (text : string)
      (* <span key=coeff-power>formattedCoeff</span> *)
  | VarX (power : nat)
      (* <em key=x-power className="font-serif italic">x</em> *)
  | Sup (power : nat).
      (* <sup key=sup-power>power</sup> *)

(** What the component returns. *)
Inductive formula : Type :=
  | ZeroSpan (className : string)
      (* <span className=...>f(x) = 0</span> *)
  | ZeroBox (className : string)
      (* <div ...><em ...>f(x) =</em><span>0</span></div> *)
  | Terms (className : string) (parts : list part).
      (* <div ...><em ...>f(x) =</em>{parts}</div> *)

Definition zeroTolerance : Qc := Q2Qc 1e-9.

(** [showCoeff] *)
Definition showCoeff (coeff : Qc) (power : nat) : bool :=
  let absCoeff := Qcabs coeff in
  bool_decide (zeroTolerance < Qcabs (absCoeff - 1))%Qc || bool_decide (power = 0).

(** What one coefficient that is not skipped pushes to [parts]. *)
Definition termParts (isFirstTerm : bool) (coeff : Qc) (power : nat) : list part :=
  let absCoeff := Qcabs coeff in
  let sign :=
    if negb isFirstTerm
    then [Sign power "mx-1" (if bool_decide (0 < coeff)%Qc then "+" else "-")]
    else if bool_decide (coeff < 0)%Qc then [Sign power "mr-1" "-"] else [] in
  let magnitude :=
    if showCoeff coeff power
    then [Coeff power (if bool_decide (Q2Qc 1000 < absCoeff)%Qc
                       then toExponential2 absCoeff
                       else toPrecision3Number absCoeff)]
    else [] in
  let variable :=
    if bool_decide (0 < power)
    then VarX power :: (if bool_decide (1 < power) then [Sup power] else [])
    else [] in
  sign ++ magnitude ++ variable.

(** The [forEach] over the reversed coefficients. *)
Definition formulaParts (coefficients : list Qc) : list part :=
  let reversedCoefficients := reverse coefficients in
  let highestPower := length reversedCoefficients - 1 in
  fold_left
    (λ parts '(index, coeff),
       let power := highestPower - index in
       if bool_decide (Qcabs coeff < zeroTolerance)%Qc then parts
       else parts ++ termParts (bool_decide (length parts = 0)) coeff power)
    (imap pair reversedCoefficients) [].

(** [coefficients] is an array ([!coefficients] is false); [className]
    defaults to the empty string at the call. *)
Definition PrettyFormula (coefficients : list Qc) (className : string) : formula :=
  if bool_decide (length coefficients = 0) then ZeroSpan className
  else
    let parts := formulaParts coefficients in
    if bool_decide (length parts = 0) then ZeroBox className
    else Terms className parts.




(** ** solveLinearSystem on the heap

    The same function with its arrays as objects of a heap, to see which
    objects it writes.  [matrixA] is a reference to an array of references
    to rows, [vectorB] a reference to an array of numbers.  An array
    literal and [new Array] allocate a fresh object at the end of the
    heap.  The spine of [m] is private to the call and is kept as a list
    of row references; the rows themselves are heap objects, and every
    assignment [m[r][c] = v] writes the object that [m[r]] refers to. *)

Module Heap.

Abbreviation loc := nat.

Inductive object : Type :=
  | Numbers (xs : list Qc)
  | Rows (refs : list loc).

Abbreviation heap := (list object).

Definition numbersAt (h : heap) (l : loc) : list Qc :=
  match h !! l with
  | Some (Numbers xs) => xs
  | _ => []
  end.

Definition refsAt (h : heap) (l : loc) : list loc :=
  match h !! l with
  | Some (Rows refs) => refs
  | _ => []
  end.

(** The matrix a reference to an array of rows stands for. *)
Definition matrixAt (h : heap) (l : loc) : matrix :=
  map (numbersAt h) (refsAt h l).

(** The rows that the references of [m] point to. *)
Definition rowsOf (h : heap) (m : list loc) : matrix := map (numbersAt h) m.

Definition alloc (h : heap) (o : object) : heap * loc := (h ++ [o], length h).

(** [m[r][c]] *)
Definition getEntry (h : heap) (m : list loc) (r c : nat) : Qc :=
  default 0%Qc (m !! r ≫= λ l, numbersAt h l !! c).

(** [m[r][c] = v] *)
Definition setEntry (h : heap) (m : list loc) (r c : nat) (v : Qc) : heap :=
  match m !! r with
  | Some l =>
      match h !! l with
      | Some (Numbers xs) => <[l := Numbers (<[c := v]> xs)]> h
      | _ => h
      end
  | None => h
  end.

(** [m[i] = [...matrixA[i], vectorB[i]]]: a new row object for every [i]. *)
Definition augment (h : heap) (matrixA vectorB : loc) : heap * list loc :=
  fold_left
    (λ '(h, m) i,
       let row := numbersAt h (default 0 (refsAt h matrixA !! i)) in
       let bi := default 0%Qc (numbersAt h vectorB !! i) in
       let '(h', l) := alloc h (Numbers (row ++ [bi])) in
       (h', m ++ [l]))
    (range 0 (length (refsAt h matrixA))) (h, []).

Definition findPivot (n : nat) (h : heap) (m : list loc) (i : nat) : nat :=
  fold_left
    (λ maxRow k,
       if bool_decide (Qcabs (getEntry h m maxRow i) < Qcabs (getEntry h m k i))%Qc
       then k else maxRow)
    (range (i + 1) n) i.

Definition makePivotOne (n : nat) (m : list loc) (h : heap) (i : nat) : heap :=
  let h1 :=
    fold_left (λ h k, setEntry h m i k (getEntry h m i k / getEntry h m i i)%Qc)
              (range (i + 1) (n + 1)) h in
  setEntry h1 m i i 1%Qc.

Definition eliminateRow (n : nat) (m : list loc) (i : nat) (h : heap) (k : nat)
  : heap :=
  let factor := getEntry h m k i in
  fold_left
    (λ h j, setEntry h m k j (getEntry h m k j - factor * getEntry h m i j)%Qc)
    (range i (n + 1)) h.

Definition eliminateOtherRows (n : nat) (m : list loc) (h : heap) (i : nat)
  : heap :=
  fold_left (λ h k, if decide (k ≠ i) then eliminateRow n m i h k else h)
            (range 0 n) h.

(** One turn of the main loop; the heap is returned also when it throws. *)
Definition eliminateColumn (n : nat) (h : heap) (m : list loc) (i : nat)
  : heap * result (list loc) :=
  let maxRow := findPivot n h m i in
  let m := swapRows m i maxRow in
  if bool_decide (Qcabs (getEntry h m i i) < tolerance)%Qc
  then (h, Err SingularMatrixError)
  else (eliminateOtherRows n m (makePivotOne n m h i) i, Ok m).

Fixpoint eliminateColumns (n : nat) (ks : list nat) (h : heap) (m : list loc)
  : heap * result (list loc) :=
  match ks with
  | [] => (h, Ok m)
  | i :: rest =>
      match eliminateColumn n h m i with
      | (h', Ok m') => eliminateColumns n rest h' m'
      | (h', Err e) => (h', Err e)
      end
  end.

(** The heap after the call, and the reference to the solution array or
    the error thrown. *)
Definition solveLinearSystem (h : heap) (matrixA vectorB : loc)
  : heap * result loc :=
  let n := length (refsAt h matrixA) in
  let '(h, m) := augment h matrixA vectorB in
  match eliminateColumns n (range 0 n) h m with
  | (h, Ok m) => 
      let '(h, solution) :=
        alloc h (Numbers (map (λ i, getEntry h m i n) (range 0 n))) in
      (h, Ok solution)
  | (h, Err e) => (h, Err e)
  end.

End Heap.

(** * Vocabulary of the statements *)

(** ** Finite sums *)

Definition sumList (l : list Qc) : Qc := foldr Qcplus 0%Qc l.

(** [sum over j < n of f j] *)
Definition bigsum (n : nat) (f : nat → Qc) : Qc := sumList (map f (range 0 n)).

(** ** The working matrix of the solver *)

(** [n] rows of [n + 1] numbers. *)
Definition augmented (n : nat) (m : matrix) : Prop :=
  length m = n ∧ Forall (λ row, length row = S n) m.

Definition square (matrixA : matrix) : Prop :=
  Forall (λ row, length row = length matrixA) matrixA.

(** The entry the code tests against the tolerance in turn [i]: the one of
    the row the pivot search selects. *)
Definition selectedPivot (n : nat) (m : matrix) (i : nat) : Qc :=
  entry m (findPivot n m i) i.

(** Columns [0 .. i-1] are already those of the identity. *)
Definition unitColumns (n i : nat) (m : matrix) : Prop :=
  ∀ r c, r < n → c < i →
         entry m r c = if decide (r = c) then 1%Qc else 0%Qc.

(** [xs] solves every equation of the augmented matrix. *)
Definition satisfies (n : nat) (m : matrix) (xs : nat → Qc) : Prop :=
  ∀ r, r < n → bigsum n (λ j, entry m r j * xs j)%Qc = entry m r n.

(** The pivot the code selects in turn [i] is below the tolerance. *)
Definition belowToleranceAt (matrixA : matrix) (vectorB : list Qc) (i : nat)
  : Prop :=
  ∃ m, eliminated matrixA vectorB i = Ok m ∧
       (Qcabs (selectedPivot (length matrixA) m i) < tolerance)%Qc.

(** The vector read off the last column of the reduced matrix. *)
Definition lastColumn (n : nat) (m : matrix) : list Qc :=
  map (λ i, entry m i n) (range 0 n).

(** ** The normal equations *)

(** The matrix and the right-hand side that are handed to the solver. *)
Definition XtX_of (points : list Point) (degree : nat) : matrix :=
  let n := degree + 1 in
  let numPoints := length points in
  let X := designMatrix points n in
  gramMatrix n numPoints (transpose n numPoints X) X.

Definition XtY_of (points : list Point) (degree : nat) : list Qc :=
  let n := degree + 1 in
  let numPoints := length points in
  let X := designMatrix points n in
  momentVector n numPoints (transpose n numPoints X) (map y points).

(** ** The degree sweep *)

(** The largest degree the sweep tries. *)
Definition maxDegree (n : nat) : nat := Nat.min 20 (n - 1).

(** What the body of the loop finds for one degree. *)
Inductive outcome : Type :=
  | Singular                              (* the regression threw *)
  | Perfect (c : list Qc)                 (* rss <= 1e-10 *)
  | Scored (c : list Qc) (s : Qc).        (* rss > 1e-10, with its score *)

Section SweepVocabulary.
Variable log : Qc → Qc.
Variable points : list Point.
Variable method : AutoFitMethod.

Definition attempt (degree : nat) : outcome :=
  match calculatePolynomialRegression points degree with
  | Err _ => Singular
  | Ok c =>
      let rss := residualSumOfSquares points c in
      if bool_decide (rss ≤ tolerance)%Qc then Perfect c
      else Scored c (criterion log method (length points) rss degree)
  end.

(** The state after the degrees [1 .. k]. *)
Definition sweepState (k : nat) : Sweep.state :=
  fold_left (tryDegree log points method) (range 1 (S k)) Sweep.initial.

Inductive sweepInv (k : nat) (st : Sweep.state) : Prop :=
  | NoneYet :
      st = Sweep.initial →
      (∀ d, 1 ≤ d ≤ k → attempt d = Singular) →
      sweepInv k st
  | PerfectFirst (d : nat) (c : list Qc) :
      1 ≤ d ≤ k →
      (∀ d', 1 ≤ d' < d → attempt d' = Singular) →
      attempt d = Perfect c →
      st = Sweep.mkState NegInfinity (Z.of_nat d) c →
      sweepInv k st
  | BestScored (d : nat) (c : list Qc) (s : Qc) :
      1 ≤ d ≤ k →
      attempt d = Scored c s →
      st = Sweep.mkState (Finite s) (Z.of_nat d) c →
      (∃ d0 c0 s0, 1 ≤ d0 ≤ d ∧ attempt d0 = Scored c0 s0 ∧
                   ∀ d', 1 ≤ d' < d0 → attempt d' = Singular) →
      (∀ d' c' s', 1 ≤ d' ≤ k → attempt d' = Scored c' s' →
                   (s ≤ s')%Qc ∧ (s' = s → d ≤ d')) →
      sweepInv k st.
End SweepVocabulary.

(** ** The formula display *)


(** ** Heap runs *)

(** The row references of [m] are distinct objects allocated by the call
    (at or above [base]). *)
Definition freshRows (base : nat) (m : list Heap.loc) : Prop :=
  NoDup m ∧ Forall (λ l, base ≤ l) m.

(** Every object below [base] is as in [h0]. *)
Definition unchangedBelow (base : nat) (h0 h : Heap.heap) : Prop :=
  ∀ l, l < base → h !! l = h0 !! l.

(** The heap [h] with row references [m] stands for the matrix [M], and
    the objects of the caller are untouched. *)
Definition sim (base : nat) (h0 : Heap.heap) (m : list Heap.loc)
    (h : Heap.heap) (M : matrix) : Prop :=
  Heap.rowsOf h m = M ∧ unchangedBelow base h0 h.

(** A heap run and a functional run end alike. *)
Definition agrees (base : nat) (h0 : Heap.heap)
    (run : Heap.heap * result (list Heap.loc)) (r : result matrix) : Prop :=
  unchangedBelow base h0 run.1 ∧
  match run.2, r with
  | Ok m, Ok M => freshRows base m ∧ Heap.rowsOf run.1 m = M
  | Err e, Err e' => e = e'
  | _, _ => False
  end.

(** The caller's arrays exist in the heap. *)
Definition allocated (h : Heap.heap) (matrixA vectorB : Heap.loc) : Prop :=
  matrixA < length h ∧ vectorB < length h ∧
  Forall (λ l, l < length h) (Heap.refsAt h matrixA).

(** ** One elimination step, entry by entry *)

(** [m[r][c]] after the rows [i] and [p] have been swapped. *)
Definition swapped (m : matrix) (i p r c : nat) : Qc :=
  entry m (if decide (r = i) then p else if decide (r = p) then i else r) c.

(** The pivot row [i] after its normalisation, the pivot being in row [p]
    before the swap. *)
Definition pivotRow (n : nat) (m : matrix) (i p c : nat) : Qc :=
  if decide (c = i) then 1%Qc
  else if decide (i < c ≤ n) then (swapped m i p i c / swapped m i p i i)%Qc
  else swapped m i p i c.

(** Two working matrices with the same coefficient columns [0 .. n-1]. *)
Definition sameCoefficients (n : nat) (m1 m2 : matrix) : Prop :=
  ∀ r c, r < n → c < n → entry m1 r c = entry m2 r c.

(** ** The formula display, term by term *)

(** The pairs of a power and its coefficient that are not skipped,
    highest power first. *)
Definition shownTerms (coefficients : list Qc) : list (nat * Qc) :=
  filter (λ t, ¬ (Qcabs t.2 < zeroTolerance)%Qc)
         (reverse (imap pair coefficients)).

(** The elements of a list of terms; only the head can be a first term. *)
Fixpoint partsOf (isFirstTerm : bool) (terms : list (nat * Qc)) : list part :=
  match terms with
  | [] => []
  | (power, coeff) :: rest =>
      termParts isFirstTerm coeff power ++ partsOf false rest
  end.


(** ** Data of the concrete runs *)

Definition numbers (l : list Q) : list Qc := map Q2Qc l.

Definition point (a b : Q) : Point := mkPoint (Q2Qc a) (Q2Qc b).

(** [2 x + y = 5, x + 3 y = 10] *)
Definition regularA : matrix := [numbers [2; 1]%Q; numbers [1; 3]%Q].

Definition regularB : list Qc := numbers [5; 10]%Q.

(** Two proportional rows. *)
Definition singularA : matrix := [numbers [2; 4]%Q; numbers [1; 2]%Q].

(** Three points of the parabola [y = x^2]. *)
Definition parabola : list Point := [point 0 0; point 1 1; point 2 4].

(** Three points of the line [y = x]. *)
Definition line : list Point := [point 0 0; point 1 1; point 2 2].

(** A stand-in for [Math.log] where a run needs one. *)
Definition anyLog (q : Qc) : Qc := q.

(** The caller's heap: the two rows, the matrix and the vector. *)
Definition callerHeap : Heap.heap :=
  [Heap.Numbers (numbers [2; 1]%Q); Heap.Numbers (numbers [1; 3]%Q);
   Heap.Rows [0; 1]; Heap.Numbers (numbers [5; 10]%Q)].

Definition fitOf (r : result (list Qc)) : list Qc :=
  match r with Ok c => c | Err _ => [] end.

(** * The regression service on doubles

    The same functions once more, with the numbers the program computes
    with: a JavaScript [number] is an IEEE 754 binary64 value, here a
    primitive [float], with its rounding, its overflow to an infinity and
    its NaN, whose comparisons are all false.  Loop counters, lengths and
    degrees stay natural numbers; [bestDegree], which starts at -1, is an
    integer.  [Math.pow] and [Math.log] are library functions and are
    parameters of what uses them. *)

Module Double.
Local Open Scope float_scope.

Abbreviation matrix := (list (list float)).

(** [m[r][c]].  A read outside an array gives [undefined], which every
    arithmetic operation and [Math.abs] turn into NaN. *)
Definition entry (m : matrix) (r c : nat) : float :=
  default nan (m !! r ≫= (.!! c)).

(** [m[r][c] = v], for [c] within the row (the solver never writes
    elsewhere on an n x (n+1) matrix; JavaScript would extend the row). *)
Definition set_entry (m : matrix) (r c : nat) (v : float) : matrix :=
  alter (<[c := v]>) r m.

(** *** solveLinearSystem *)

Definition tolerance : float := 1e-10.

Definition augment (matrixA : matrix) (vectorB : list float) : matrix :=
  imap (λ i row, row ++ [default nan (vectorB !! i)]) matrixA.

(** [Math.abs(m[k][i]) > Math.abs(m[maxRow][i])] moves [maxRow] to [k]. *)
Definition findPivot (n : nat) (m : matrix) (i : nat) : nat :=
  fold_left
    (λ maxRow k,
       if abs (entry m maxRow i) <? abs (entry m k i) then k else maxRow)
    (range (i + 1) n) i.

(** [for k in i+1 .. n: m[i][k] /= m[i][i]], then [m[i][i] = 1]. *)
Definition makePivotOne (n : nat) (m : matrix) (i : nat) : matrix :=
  let m1 :=
    fold_left (λ m k, set_entry m i k (entry m i k / entry m i i))
              (range (i + 1) (n + 1)) m in
  set_entry m1 i i 1.

(** [const factor = m[k][i]; for j in i .. n: m[k][j] -= factor * m[i][j]] *)
Definition eliminateRow (n : nat) (i : nat) (m : matrix) (k : nat) : matrix :=
  let factor := entry m k i in
  fold_left (λ m j, set_entry m k j (entry m k j - factor * entry m i j))
            (range i (n + 1)) m.

Definition eliminateOtherRows (n : nat) (m : matrix) (i : nat) : matrix :=
  fold_left (λ m k, if decide (k ≠ i) then eliminateRow n i m k else m)
            (range 0 n) m.

(** One turn of the main loop, for pivot column [i]. *)
Definition eliminateColumn (n : nat) (m : matrix) (i : nat) : result matrix :=
  let maxRow := findPivot n m i in
  let m := swapRows m i maxRow in
  if abs (entry m i i) <? tolerance
  then Err SingularMatrixError
  else Ok (eliminateOtherRows n (makePivotOne n m i) i).

(** The augmented matrix after the pivot columns [0 .. i-1]. *)
Definition eliminated (matrixA : matrix) (vectorB : list float) (i : nat)
  : result matrix :=
  forM (eliminateColumn (length matrixA)) (range 0 i) (augment matrixA vectorB).

Definition solveLinearSystem (matrixA : matrix) (vectorB : list float)
  : result (list float) :=
  let n := length matrixA in
  m <- eliminated matrixA vectorB n ;;
  Ok (map (λ i, entry m i n) (range 0 n)).

(** *** calculatePolynomialRegression *)

Record Point : Type := mkPoint { x : float; y : float }.

(** A count ([points.length], [degree + 1]) used as a number. *)
Definition ofNat (k : nat) : float := of_uint63 (Uint63.of_Z (Z.of_nat k)).

(** The object [findBestFitPolynomial] returns. *)
Record BestFit : Type := mkBestFit { bestDegree : Z; coefficients : list float }.

Module Sweep.
(** The three local variables the loop updates. *)
Record state : Type := mkState {
  bestScore : float;
  bestDegree : Z;
  bestCoefficients : list float
}.

Definition initial : state :=
  {| bestScore := infinity; bestDegree := -1; bestCoefficients := [] |}.
End Sweep.

Section Library.
(** [Math.pow(x, j)] for a loop counter [j], and [Math.log]. *)
Variable pow : float → nat → float.
Variable log : float → float.

(** [X[i][j] = Math.pow(points[i].x, j)] *)
Definition designMatrix (points : list Point) (n : nat) : matrix :=
  map (λ p, map (λ j, pow (x p) j) (range 0 n)) points.

(** [Xt[i][j] = X[j][i]] *)
Definition transpose (n numPoints : nat) (X : matrix) : matrix :=
  map (λ i, map (λ j, entry X j i) (range 0 numPoints)) (range 0 n).

(** [XtX[i][j]]: [sum += Xt[i][k] * X[k][j]] from [sum = 0], over [k]. *)
Definition gramMatrix (n numPoints : nat) (Xt X : matrix) : matrix :=
  map (λ i, map (λ j,
         fold_left (λ sum k, sum + entry Xt i k * entry X k j)
                   (range 0 numPoints) 0)
       (range 0 n))
      (range 0 n).

(** [XtY[i]]: [sum += Xt[i][j] * Y[j]] from [sum = 0], over [j]. *)
Definition momentVector (n numPoints : nat) (Xt : matrix) (Y : list float)
  : list float :=
  map (λ i, fold_left (λ sum j, sum + entry Xt i j * default nan (Y !! j))
                      (range 0 numPoints) 0)
      (range 0 n).

Definition calculatePolynomialRegression (points : list Point) (degree : nat)
  : result (list float) :=
  let n := (degree + 1)%nat in
  let numPoints := length points in
  let X := designMatrix points n in
  let Y := map y points in
  let Xt := transpose n numPoints X in
  let XtX := gramMatrix n numPoints Xt X in
  let XtY := momentVector n numPoints Xt Y in
  solveLinearSystem XtX XtY.

(** *** evaluatePolynomial *)

Definition evaluatePolynomial (coefficients : list float) (x : float) : float :=
  fold_left (λ result i, result + default nan (coefficients !! i) * pow x i)
            (range 0 (length coefficients)) 0.

(** *** findBestFitPolynomial *)

(** [rss += Math.pow(point.y - predictedY, 2)] from [rss = 0]. *)
Definition residualSumOfSquares (points : list Point)
    (coefficients : list float) : float :=
  fold_left
    (λ rss point,
       let predictedY := evaluatePolynomial coefficients (x point) in
       rss + pow (y point - predictedY) 2)
    points 0.

(** The body of the sweep for one degree.  The [catch] branch only writes
    a warning to the console and leaves the three variables as they are. *)
Definition tryDegree (points : list Point) (method : AutoFitMethod)
    (st : Sweep.state) (degree : nat) : Sweep.state :=
  let n := ofNat (length points) in
  match calculatePolynomialRegression points degree with
  | Err _ => st
  | Ok coefficients =>
      let rss := residualSumOfSquares points coefficients in
      if rss <=? 1e-10 then
        if bool_decide (Sweep.bestDegree st = -1)%Z
        then Sweep.mkState neg_infinity (Z.of_nat degree) coefficients
        else st
      else
        let k := ofNat (degree + 1) in
        let score :=
          match method with
          | AIC => n * log (rss / n) + 2 * k
          | BIC => n * log (rss / n) + k * log n
          end in
        if score <? Sweep.bestScore st
        then Sweep.mkState score (Z.of_nat degree) coefficients
        else st
  end.

(** [for (let degree = ...; degree <= maxDegreeToTest; degree++)], with the
    number of remaining turns as fuel. *)
Fixpoint sweepFrom (points : list Point) (method : AutoFitMethod)
    (maxDegreeToTest : Z) (fuel : nat) (degree : nat) (st : Sweep.state)
  : Sweep.state :=
  match fuel with
  | O => st
  | S fuel' =>
      if bool_decide (Z.of_nat degree ≤ maxDegreeToTest)%Z
      then sweepFrom points method maxDegreeToTest fuel' (S degree)
                     (tryDegree points method st degree)
      else st
  end.

(** The default ['BIC'] of [method] is left to the caller. *)
Definition findBestFitPolynomial (points : list Point) (method : AutoFitMethod)
  : result BestFit :=
  let n := length points in
  let maxDegreeToTest := Z.min 20 (Z.of_nat n - 1) in
  if bool_decide (maxDegreeToTest < 1)%Z then Err InsufficientDataError
  else
    let st := sweepFrom points method maxDegreeToTest
                        (Z.to_nat maxDegreeToTest) 1 Sweep.initial in
    if bool_decide (Sweep.bestDegree st = -1)%Z then Err NoModelFoundError
    else Ok {| bestDegree := Sweep.bestDegree st;
               coefficients := Sweep.bestCoefficients st |}.

(** *** handleTrain, from the parsed points on *)

Definition handleTrain (parsedPoints : list Point) (selectedDegree : nat)
    (isAuto : bool) (autoFitMethod : AutoFitMethod)
  : result (list float * Z) :=
  if isAuto then
    if bool_decide (length parsedPoints < 2)%nat then Err AutoModeError
    else
      result <- findBestFitPolynomial parsedPoints autoFitMethod ;;
      Ok (coefficients result, bestDegree result)
  else
    if bool_decide (length parsedPoints < selectedDegree + 1)%nat
    then Err (ExplicitModeError selectedDegree)
    else
      calculatedCoefficients <-
        calculatePolynomialRegression parsedPoints selectedDegree ;;
      Ok (calculatedCoefficients, Z.of_nat selectedDegree).
End Library.

(** *** Vocabulary of the statements on doubles *)

(** [n] rows of [n + 1] numbers. *)
Definition augmented (n : nat) (m : matrix) : Prop :=
  length m = n ∧ Forall (λ row, length row = S n) m.

Definition square (matrixA : matrix) : Prop :=
  Forall (λ row, length row = length matrixA) matrixA.

(** The entry the code tests against the tolerance in turn [i]: the one of
    the row the pivot search selects. *)
Definition selectedPivot (n : nat) (m : matrix) (i : nat) : float :=
  entry m (findPivot n m i) i.

(** The pivot the code selects in turn [i] is below the tolerance. *)
Definition belowToleranceAt (matrixA : matrix) (vectorB : list float) (i : nat)
  : Prop :=
  ∃ m, eliminated matrixA vectorB i = Ok m ∧
       (abs (selectedPivot (length matrixA) m i) <? tolerance) = true.

(** The vector read off the last column of the reduced matrix. *)
Definition lastColumn (n : nat) (m : matrix) : list float :=
  map (λ i, entry m i n) (range 0 n).

(** [m[r][c]] after the rows [i] and [p] have been swapped. *)
Definition swapped (m : matrix) (i p r c : nat) : float :=
  entry m (if decide (r = i) then p else if decide (r = p) then i else r) c.

(** The pivot row [i] after its normalisation, the pivot being in row [p]
    before the swap. *)
Definition pivotRow (n : nat) (m : matrix) (i p c : nat) : float :=
  if decide (c = i) then 1
  else if decide (i < c ≤ n)%nat then swapped m i p i c / swapped m i p i i
  else swapped m i p i c.

(** [m[r][c]] after the turn for column [i] with the pivot found in row
    [p]: the pivot row is normalised, and the multiple of it that clears
    column [i] is subtracted from every other row, from column [i] on. *)
Definition reduced (n : nat) (m : matrix) (i p r c : nat) : float :=
  if decide (r = i) then pivotRow n m i p c
  else if decide (r < n ∧ i ≤ c ≤ n)%nat
       then swapped m i p r c - swapped m i p r i * pivotRow n m i p c
       else swapped m i p r c.

(** [matrixA * xs], each row accumulated from the left. *)
Definition matVec (matrixA : matrix) (xs : list float) : list float :=
  map (λ row, fold_left (λ sum j,
                 sum + default nan (row !! j) * default nan (xs !! j))
               (range 0 (length row)) 0)
      matrixA.

Section Statements.
Variable pow : float → nat → float.
Variable log : float → float.

(** The matrix and the right-hand side that are handed to the solver. *)
Definition XtX_of (points : list Point) (degree : nat) : matrix :=
  let n := (degree + 1)%nat in
  let numPoints := length points in
  let X := designMatrix pow points n in
  gramMatrix n numPoints (transpose n numPoints X) X.

Definition XtY_of (points : list Point) (degree : nat) : list float :=
  let n := (degree + 1)%nat in
  let numPoints := length points in
  let X := designMatrix pow points n in
  momentVector n numPoints (transpose n numPoints X) (map y points).

(** The score of a fit of [n] points with residual sum [rss]:
    [n ln(rss/n) + 2k] under AIC and [n ln(rss/n) + k ln n] under BIC, with
    [k = degree + 1] parameters. *)
Definition criterion (method : AutoFitMethod) (n : nat) (rss : float)
    (degree : nat) : float :=
  let k := (degree + 1)%nat in
  match method with
  | AIC => ofNat n * log (rss / ofNat n) + 2 * ofNat k
  | BIC => ofNat n * log (rss / ofNat n) + ofNat k * log (ofNat n)
  end.

(** What the body of the loop finds for one degree. *)
Inductive outcome : Type :=
  | Threw                                   (* the regression threw *)
  | Perfect (c : list float)                (* rss <= 1e-10 *)
  | Scored (c : list float) (s : float).    (* otherwise, with its score *)

Variable points : list Point.
Variable method : AutoFitMethod.

Definition attempt (degree : nat) : outcome :=
  match calculatePolynomialRegression pow points degree with
  | Err _ => Threw
  | Ok c =>
      let rss := residualSumOfSquares pow points c in
      if rss <=? 1e-10 then Perfect c
      else Scored c (criterion method (length points) rss degree)
  end.

(** A degree that the sweep cannot accept while nothing has been accepted:
    its regression threw, or its score is not below [Infinity]. *)
Definition unfit (degree : nat) : Prop :=
  attempt degree = Threw ∨
  ∃ c s, attempt degree = Scored c s ∧ (s <? infinity) = false.

(** The state after the degrees [1 .. k]. *)
Definition sweepState (k : nat) : Sweep.state :=
  fold_left (tryDegree pow log points method) (range 1 (S k)) Sweep.initial.

(** What the three variables hold after the degrees [1 .. k]: nothing yet,
    the first perfect fit, or a scored fit below which no score lies. *)
Inductive sweepInv (k : nat) (st : Sweep.state) : Prop :=
  | NoneYet :
      st = Sweep.initial →
      (∀ d, 1 ≤ d ≤ k → unfit d)%nat →
      sweepInv k st
  | PerfectFirst (d : nat) (c : list float) :
      (1 ≤ d ≤ k)%nat →
      (∀ d', 1 ≤ d' < d → unfit d')%nat →
      attempt d = Perfect c →
      st = Sweep.mkState neg_infinity (Z.of_nat d) c →
      sweepInv k st
  | BestScored (d : nat) (c : list float) (s : float) :
      (1 ≤ d ≤ k)%nat →
      attempt d = Scored c s →
      st = Sweep.mkState s (Z.of_nat d) c →
      (s <? infinity) = true →
      (∀ d' c' s', (1 ≤ d' ≤ k)%nat → attempt d' = Scored c' s' →
                   (s' <? s) = false ∧ (s' = s → d ≤ d')%nat) →
      sweepInv k st.
End Statements.

(** *** Data of the runs on doubles *)

(** What the runs below need of [Math.pow] and [Math.log]: the powers 0,
    1 and 2 are [1], [x] and the product [x * x], and the logarithm of NaN
    is NaN. *)
Definition powersUpTo2 (pow : float → nat → float) : Prop :=
  (∀ x, pow x 0%nat = 1) ∧ (∀ x, pow x 1%nat = x) ∧ (∀ x, pow x 2%nat = x * x).

Definition logOfNaN (log : float → float) : Prop := log nan = nan.

(** A stand-in for [Math.pow] on a loop counter: [1], [x], and from there
    on the repeated product, which is exact on small integers. *)
Fixpoint power (x : float) (j : nat) : float :=
  match j with
  | O => 1
  | S O => x
  | S j' => power x j' * x
  end.

(** A stand-in for [Math.log] where a run needs one; like [Math.log] it is
    increasing and maps NaN to NaN and [Infinity] to [Infinity]. *)
Definition anyLog (x : float) : float := x.

(** [2 x + y = 5, x + 3 y = 10] *)
Definition regularA : matrix := [[2; 1]; [1; 3]].
Definition regularB : list float := [5; 10].

(** The second row is three times the first: a singular matrix. *)
Definition proportionalA : matrix := [[123456789; 1e9]; [370370367; 3e9]].
Definition proportionalB : list float := [1; 2].

(** Two points with distinct abscissas, one millionth apart. *)
Definition closePoints : list Point := [mkPoint 0 0; mkPoint 0.000001 1].

(** Two points with distinct abscissas far from the origin, on the line
    [y = 10 x - 500000000]. *)
Definition farPoints : list Point :=
  [mkPoint 50000000 0; mkPoint 50000001 10].

(** Two points; the square of the second abscissa is beyond the doubles. *)
Definition hugePoints : list Point := [mkPoint 0 0; mkPoint 1e200 1].

(** Four points off every parabola. *)
Definition wave : list Point :=
  [mkPoint (-3) 0; mkPoint (-1) 2; mkPoint 1 (-4); mkPoint 3 2].

(** The vector of a run that returns. *)
Definition fitOf (r : result (list float)) : list float :=
  match r with Ok c => c | Err _ => [] end.
End Double.

(** * Properties *)

(** ** Finite sums *)

Lemma range_snoc lo hi : lo ≤ hi → range lo (S hi) = range lo hi ++ [hi].
Proof.
  intros Hle. unfold range.
  replace (S hi - lo) with (S (hi - lo)) by lia.
  rewrite seq_S. do 2 f_equal. lia.
Qed.

Lemma range_empty lo : range lo lo = [].
Proof. unfold range. by rewrite Nat.sub_diag. Qed.

Lemma elem_of_range lo hi k : k ∈ range lo hi ↔ lo ≤ k < hi.
Proof. unfold range. rewrite elem_of_seq. lia. Qed.

Lemma range_cons lo hi : lo < hi → range lo hi = lo :: range (S lo) hi.
Proof.
  intros H. unfold range.
  replace (hi - lo) with (S (hi - S lo)) by lia. done.
Qed.

Lemma length_range lo hi : length (range lo hi) = hi - lo.
Proof. unfold range. by rewrite length_seq. Qed.

Lemma lookup_range lo hi k : k < hi - lo → range lo hi !! k = Some (lo + k).
Proof. intros H. unfold range. by apply lookup_seq_lt. Qed.

Lemma sum_map_ext (f g : nat → Qc) (l : list nat) :
  (∀ j, j ∈ l → f j = g j) → sumList (map f l) = sumList (map g l).
Proof.
  induction l as [|a l IH]; intros Hfg; simpl; [done|].
  rewrite Hfg by left. rewrite IH; [done|].
  intros j Hj. apply Hfg. by right.
Qed.

Lemma sum_map_plus (f g : nat → Qc) (l : list nat) :
  sumList (map (λ j, f j + g j)%Qc l) = (sumList (map f l) + sumList (map g l))%Qc.
Proof. induction l as [|a l IH]; simpl; [ring|]. rewrite IH. ring. Qed.

Lemma sum_map_scale (c : Qc) (f : nat → Qc) (l : list nat) :
  sumList (map (λ j, c * f j)%Qc l) = (c * sumList (map f l))%Qc.
Proof. induction l as [|a l IH]; simpl; [ring|]. rewrite IH. ring. Qed.

Lemma bigsum_ext n f g : (∀ j, j < n → f j = g j) → bigsum n f = bigsum n g.
Proof.
  intros H. apply sum_map_ext. intros j Hj%elem_of_range. apply H. lia.
Qed.

Lemma bigsum_plus n f g :
  bigsum n (λ j, f j + g j)%Qc = (bigsum n f + bigsum n g)%Qc.
Proof. apply sum_map_plus. Qed.

Lemma bigsum_scale n c f : bigsum n (λ j, c * f j)%Qc = (c * bigsum n f)%Qc.
Proof. apply sum_map_scale. Qed.

(** ** The shape of the working matrix *)

Lemma augmented_lookup n m r :
  augmented n m → r < n → ∃ row, m !! r = Some row ∧ length row = S n.
Proof.
  intros [Hlen Hrows] Hr.
  destruct (lookup_lt_is_Some_2 m r) as [row Hrow]; [lia|].
  exists row. split; [done|].
  by apply (Forall_lookup_1 _ _ _ _ Hrows Hrow).
Qed.

Lemma augmented_set_entry n m r c v :
  augmented n m → augmented n (set_entry m r c v).
Proof.
  intros [Hlen Hrows]. split.
  - unfold set_entry. by rewrite length_alter.
  - apply Forall_alter; [done|]. intros row _ Hrow. by rewrite length_insert.
Qed.

Lemma entry_set_entry n m r c v r' c' :
  augmented n m → r < n → c ≤ n →
  entry (set_entry m r c v) r' c' =
    if decide (r' = r ∧ c' = c) then v else entry m r' c'.
Proof.
  intros Hm Hr Hc. unfold entry, set_entry.
  destruct (augmented_lookup n m r Hm Hr) as (row & Hrow & Hlen).
  destruct (decide (r' = r)) as [->|Hne].
  - rewrite list_lookup_alter_eq, Hrow. simpl.
    destruct (decide (c' = c)) as [->|Hnc].
    + rewrite list_lookup_insert_eq by lia.
      rewrite decide_True by done. done.
    + rewrite list_lookup_insert_ne by done.
      rewrite decide_False by tauto. done.
  - rewrite list_lookup_alter_ne by done.
    rewrite decide_False by tauto. done.
Qed.

(** ** The loops of one elimination step, entry by entry *)

Lemma fold_left_snoc {A B} (f : A → B → A) (l : list B) (b : B) (a : A) :
  fold_left f (l ++ [b]) a = f (fold_left f l a) b.
Proof. by rewrite fold_left_app. Qed.

(** Dividing the pivot row, up to column [hi]. *)
Lemma divide_loop n m i hi :
  augmented n m → i < n → i < hi ≤ S n →
  let m' := fold_left (λ m k, set_entry m i k (entry m i k / entry m i i)%Qc)
                      (range (i + 1) hi) m in
  augmented n m' ∧
  ∀ r c, entry m' r c =
         if decide (r = i ∧ i < c < hi)
         then (entry m i c / entry m i i)%Qc else entry m r c.
Proof.
  intros Hm Hi Hhi. induction hi as [|hi IH]; [lia|].
  destruct (decide (hi = i)) as [->|Hne].
  - replace (i + 1) with (S i) by lia. rewrite range_empty. simpl.
    split; [done|]. intros r c. rewrite decide_False by lia. done.
  - destruct IH as [Hm' Hent]; [lia|].
    rewrite range_snoc by lia. rewrite fold_left_snoc.
    set (m1 := fold_left _ (range (i + 1) hi) m) in *.
    split; [by apply augmented_set_entry|].
    intros r c. rewrite (entry_set_entry n) by (done || lia).
    rewrite !Hent.
    destruct (decide (r = i ∧ c = hi)) as [[-> ->]|Hn1].
    + rewrite decide_False by lia. rewrite decide_False by lia.
      rewrite decide_True by lia. done.
    + destruct (decide (r = i ∧ i < c < hi)) as [[-> ?]|Hn2].
      * rewrite decide_True by lia. done.
      * rewrite decide_False by lia. done.
Qed.

Lemma makePivotOne_spec n m i :
  augmented n m → i < n →
  augmented n (makePivotOne n m i) ∧
  ∀ r c, entry (makePivotOne n m i) r c =
         if decide (r = i)
         then if decide (c = i) then 1%Qc
              else if decide (i < c ≤ n) then (entry m i c / entry m i i)%Qc
              else entry m i c
         else entry m r c.
Proof.
  intros Hm Hi. unfold makePivotOne.
  destruct (divide_loop n m i (n + 1) Hm Hi) as [Hm' Hent]; [lia|].
  split; [by apply augmented_set_entry|].
  intros r c. rewrite (entry_set_entry n) by (done || lia).
  rewrite Hent.
  destruct (decide (r = i)) as [->|Hr].
  - destruct (decide (c = i)) as [->|Hc].
    + rewrite decide_True by done. done.
    + rewrite decide_False by tauto.
      destruct (decide (i < c ≤ n)).
      * rewrite decide_True by lia. done.
      * rewrite decide_False by lia. done.
  - rewrite decide_False by tauto. rewrite decide_False by tauto. done.
Qed.

(** Subtracting a multiple of the pivot row from row [k], up to column [hi]. *)
Lemma subtract_loop n m i k factor hi :
  augmented n m → i < n → k < n → k ≠ i → i ≤ hi ≤ S n →
  let m' := fold_left
              (λ m j, set_entry m k j (entry m k j - factor * entry m i j)%Qc)
              (range i hi) m in
  augmented n m' ∧
  ∀ r c, entry m' r c =
         if decide (r = k ∧ i ≤ c < hi)
         then (entry m k c - factor * entry m i c)%Qc else entry m r c.
Proof.
  intros Hm Hi Hk Hki Hhi. induction hi as [|hi IH].
  - assert (i = 0) as -> by lia. rewrite range_empty. simpl.
    split; [done|]. intros r c. rewrite decide_False by lia. done.
  - destruct (decide (S hi = i)) as [<-|Hne].
    { rewrite range_empty. simpl. split; [done|].
      intros r c. rewrite decide_False by lia. done. }
    destruct IH as [Hm' Hent]; [lia|].
    rewrite range_snoc by lia. rewrite fold_left_snoc.
    set (m1 := fold_left _ (range i hi) m) in *.
    split; [by apply augmented_set_entry|].
    intros r c. rewrite (entry_set_entry n) by (done || lia).
    rewrite !Hent.
    destruct (decide (r = k ∧ c = hi)) as [[-> ->]|Hn1].
    + rewrite decide_False by lia. rewrite decide_False by lia.
      rewrite decide_True by lia. done.
    + destruct (decide (r = k ∧ i ≤ c < hi)) as [[-> ?]|Hn2].
      * rewrite decide_True by lia. done.
      * rewrite decide_False by lia. done.
Qed.

Lemma eliminateRow_spec n m i k :
  augmented n m → i < n → k < n → k ≠ i →
  augmented n (eliminateRow n i m k) ∧
  ∀ r c, entry (eliminateRow n i m k) r c =
         if decide (r = k ∧ i ≤ c ≤ n)
         then (entry m k c - entry m k i * entry m i c)%Qc else entry m r c.
Proof.
  intros Hm Hi Hk Hki. unfold eliminateRow.
  destruct (subtract_loop n m i k (entry m k i) (n + 1)) as [Hm' Hent];
    [done..|lia|].
  split; [done|]. intros r c. rewrite Hent.
  destruct (decide (r = k ∧ i ≤ c ≤ n)).
  - rewrite decide_True by lia. done.
  - rewrite decide_False by lia. done.
Qed.

(** The rows below [hi] other than the pivot row have been reduced. *)
Lemma eliminate_loop n m i hi :
  augmented n m → i < n → hi ≤ n →
  let m' := fold_left (λ m k, if decide (k ≠ i) then eliminateRow n i m k else m)
                      (range 0 hi) m in
  augmented n m' ∧
  ∀ r c, entry m' r c =
         if decide (r ≠ i ∧ r < hi ∧ i ≤ c ≤ n)
         then (entry m r c - entry m r i * entry m i c)%Qc else entry m r c.
Proof.
  intros Hm Hi Hhi. induction hi as [|hi IH].
  - rewrite range_empty. simpl. split; [done|].
    intros r c. rewrite decide_False by lia. done.
  - destruct IH as [Hm' Hent]; [lia|].
    rewrite range_snoc by lia. rewrite fold_left_snoc.
    set (m1 := fold_left _ (range 0 hi) m) in *.
    destruct (decide (hi ≠ i)) as [Hne|Heq].
    + destruct (eliminateRow_spec n m1 i hi) as [Hm2 Hent2]; [done|lia..|].
      split; [done|]. intros r c. rewrite Hent2, !Hent.
      destruct (decide (r = hi ∧ i ≤ c ≤ n)) as [[-> ?]|Hn1].
      * rewrite !decide_False by lia. rewrite decide_True by lia. done.
      * destruct (decide (r ≠ i ∧ r < hi ∧ i ≤ c ≤ n)).
        -- rewrite decide_True by lia. done.
        -- rewrite decide_False by lia. done.
    + split; [done|]. intros r c. rewrite Hent.
      destruct (decide (r ≠ i ∧ r < hi ∧ i ≤ c ≤ n)).
      * rewrite decide_True by lia. done.
      * rewrite decide_False by lia. done.
Qed.

Lemma eliminateOtherRows_spec n m i :
  augmented n m → i < n →
  augmented n (eliminateOtherRows n m i) ∧
  ∀ r c, entry (eliminateOtherRows n m i) r c =
         if decide (r ≠ i ∧ r < n ∧ i ≤ c ≤ n)
         then (entry m r c - entry m r i * entry m i c)%Qc else entry m r c.
Proof. intros Hm Hi. by apply eliminate_loop. Qed.

Lemma entry_swapRows n m i p r c :
  augmented n m → i < n → p < n →
  entry (swapRows m i p) r c =
    entry m (if decide (r = i) then p else if decide (r = p) then i else r) c.
Proof.
  intros Hm Hi Hp. unfold swapRows.
  destruct (augmented_lookup n m p Hm Hp) as (rowMax & HrowMax & _).
  destruct (augmented_lookup n m i Hm Hi) as (rowI & HrowI & _).
  destruct Hm as [Hlen _].
  rewrite HrowMax, HrowI. unfold entry.
  destruct (decide (r = p)) as [->|Hrp].
  - rewrite list_lookup_insert_eq by (rewrite length_insert; lia).
    destruct (decide (p = i)) as [->|Hpi]; by rewrite HrowI.
  - rewrite list_lookup_insert_ne by done.
    destruct (decide (r = i)) as [->|Hri].
    + rewrite list_lookup_insert_eq by lia. by rewrite HrowMax.
    + by rewrite list_lookup_insert_ne.
Qed.

Lemma augmented_swapRows n m i p :
  augmented n m → augmented n (swapRows m i p).
Proof.
  intros [Hlen Hrows]. unfold swapRows.
  destruct (m !! p) as [rowMax|] eqn:Hp; [|done].
  destruct (m !! i) as [rowI|] eqn:Hi; [|done].
  split; [by rewrite !length_insert|].
  apply Forall_insert; [apply Forall_insert; [done|]|].
  - by apply (Forall_lookup_1 _ _ _ _ Hrows Hp).
  - by apply (Forall_lookup_1 _ _ _ _ Hrows Hi).
Qed.

(** The pivot search returns a row of [i .. n-1] whose entry in column [i]
    is largest in absolute value. *)
Lemma pivot_loop m i hi :
  i < hi →
  let p := fold_left
             (λ maxRow k,
                if bool_decide (Qcabs (entry m maxRow i) < Qcabs (entry m k i))%Qc
                then k else maxRow)
             (range (i + 1) hi) i in
  i ≤ p < hi ∧
  ∀ k, i ≤ k < hi → (Qcabs (entry m k i) ≤ Qcabs (entry m p i))%Qc.
Proof.
  intros Hhi. induction hi as [|hi IH]; [lia|].
  destruct (decide (hi = i)) as [->|Hne].
  - replace (i + 1) with (S i) by lia. rewrite range_empty. simpl.
    split; [lia|]. intros k Hk. assert (k = i) as -> by lia. apply Qcle_refl.
  - destruct IH as [Hp Hmax]; [lia|].
    rewrite range_snoc by lia. rewrite fold_left_snoc.
    set (p := fold_left _ (range (i + 1) hi) i) in *.
    case_bool_decide as Hlt.
    + split; [lia|]. intros k Hk.
      destruct (decide (k = hi)) as [->|Hk']; [apply Qcle_refl|].
      apply Qclt_le_weak. eapply Qcle_lt_trans; [apply Hmax; lia|done].
    + split; [lia|]. intros k Hk.
      destruct (decide (k = hi)) as [->|Hk']; [by apply Qcnot_lt_le|].
      apply Hmax. lia.
Qed.

Lemma findPivot_spec n m i :
  i < n →
  i ≤ findPivot n m i < n ∧
  ∀ k, i ≤ k < n →
       (Qcabs (entry m k i) ≤ Qcabs (entry m (findPivot n m i) i))%Qc.
Proof. intros Hi. by apply pivot_loop. Qed.

(** ** One pivot column *)

Lemma tolerance_pos : (0 < tolerance)%Qc.
Proof. by vm_compute. Qed.

Lemma Qcabs_0 : Qcabs 0 = 0%Qc.
Proof. apply Qc_is_canon. by vm_compute. Qed.

Lemma eliminateColumn_unfold n m i :
  augmented n m → i < n →
  eliminateColumn n m i =
    if bool_decide (Qcabs (selectedPivot n m i) < tolerance)%Qc
    then Err SingularMatrixError
    else Ok (eliminateOtherRows n
               (makePivotOne n (swapRows m i (findPivot n m i)) i) i).
Proof.
  intros Hm Hi. unfold eliminateColumn, selectedPivot.
  destruct (findPivot_spec n m i Hi) as [Hp _].
  rewrite (entry_swapRows n) by (done || lia).
  by rewrite decide_True.
Qed.

Lemma eliminateColumn_correct n m i m' :
  augmented n m → i < n → unitColumns n i m →
  eliminateColumn n m i = Ok m' →
  augmented n m' ∧ unitColumns n (S i) m' ∧
  ∀ xs, satisfies n m' xs → satisfies n m xs.
Proof.
  intros Hm Hi Hunit. rewrite eliminateColumn_unfold by done.
  case_bool_decide as Htol; [done|]. intros [= <-].
  destruct (findPivot_spec n m i Hi) as [Hp _].
  set (p := findPivot n m i) in *.
  set (s := swapRows m i p).
  assert (augmented n s) as Hs by by apply augmented_swapRows.
  assert (∀ r c, entry s r c =
    entry m (if decide (r = i) then p else if decide (r = p) then i else r) c)
    as Hsw by (intros; apply (entry_swapRows n); (done || lia)).
  assert (entry s i i ≠ 0%Qc) as Hpiv.
  { intros H0. apply Htol. unfold selectedPivot. fold p.
    rewrite Hsw, decide_True in H0 by done. rewrite H0, Qcabs_0.
    apply tolerance_pos. }
  assert (∀ r c, i ≤ r < n → c < i → entry s r c = 0%Qc) as Hzero.
  { intros r c Hr Hc. rewrite Hsw.
    rewrite Hunit by (repeat case_decide; lia).
    rewrite decide_False; [done|]. repeat case_decide; lia. }
  destruct (makePivotOne_spec n s i Hs Hi) as [Hn Hnorm].
  set (nm := makePivotOne n s i) in *.
  destruct (eliminateOtherRows_spec n nm i Hn Hi) as [He Helim].
  set (e := eliminateOtherRows n nm i) in *.
  (* the rows of [s] in terms of the rows of [e] *)
  assert (∀ c, c ≤ n → entry s i c = (entry s i i * entry e i c)%Qc) as Hrow_i.
  { intros c Hc. rewrite Helim, decide_False by lia.
    rewrite Hnorm, decide_True by done.
    destruct (decide (c = i)) as [->|Hci]; [ring|].
    destruct (decide (i < c ≤ n)).
    - by field.
    - rewrite Hzero by lia. ring. }
  assert (∀ r c, r < n → r ≠ i → c ≤ n →
            entry s r c = (entry e r c + entry s r i * entry e i c)%Qc) as Hrow.
  { intros r c Hr Hri Hc. rewrite !Helim, !Hnorm.
    repeat case_decide; try lia; try ring.
    all: rewrite (Hzero i c) by lia.
    all: ring. }
  split; [done|]. split.
  - intros r c Hr Hc. rewrite Helim, !Hnorm.
    destruct (decide (c = i)) as [->|Hci].
    + repeat case_decide; try lia; ring.
    + assert (entry s r c = if decide (r = c) then 1%Qc else 0%Qc) as Hsu.
      { rewrite Hsw. rewrite Hunit by (repeat case_decide; lia).
        repeat case_decide; (done || lia). }
      repeat case_decide; try lia; subst; try done.
      all: rewrite Hsu; by repeat case_decide.
  - intros xs Hsat.
    assert (∀ r, r < n →
              bigsum n (λ j, entry s r j * xs j)%Qc = entry s r n) as Hs_sat.
    { intros r Hr. destruct (decide (r = i)) as [->|Hri].
      - rewrite (bigsum_ext n _ (λ j, entry s i i * (entry e i j * xs j))%Qc).
        + rewrite bigsum_scale, (Hsat i Hi). symmetry. by apply Hrow_i.
        + intros j Hj. rewrite (Hrow_i j) by lia. ring.
      - rewrite (bigsum_ext n _
          (λ j, entry e r j * xs j + entry s r i * (entry e i j * xs j))%Qc).
        + rewrite bigsum_plus, bigsum_scale, (Hsat r Hr), (Hsat i Hi).
          symmetry. by apply Hrow.
        + intros j Hj. rewrite (Hrow r j) by (done || lia). ring. }
    intros r Hr.
    destruct (decide (r = i)) as [->|Hri].
    { specialize (Hs_sat p ltac:(lia)). rewrite Hsw in Hs_sat.
      rewrite (bigsum_ext n _ (λ j, entry s p j * xs j)%Qc).
      - rewrite Hs_sat. repeat case_decide; congruence.
      - intros j _. rewrite Hsw. repeat case_decide; congruence. }
    destruct (decide (r = p)) as [->|Hrp].
    { specialize (Hs_sat i Hi). rewrite Hsw, decide_True in Hs_sat by done.
      rewrite <- Hs_sat. apply bigsum_ext. intros j _.
      by rewrite Hsw, decide_True. }
    specialize (Hs_sat r Hr). rewrite Hsw in Hs_sat.
    rewrite !decide_False in Hs_sat by done.
    rewrite <- Hs_sat. apply bigsum_ext. intros j _.
    rewrite Hsw. by rewrite !decide_False.
Qed.

(** ** The whole elimination *)

Lemma forM_snoc {S} (body : S → nat → result S) ks k st :
  forM body (ks ++ [k]) st = (st' <- forM body ks st ;; body st' k).
Proof.
  revert st. induction ks as [|j ks IH]; intros st; simpl.
  - by destruct (body st k).
  - destruct (body st j); simpl; [apply IH|done].
Qed.

Lemma eliminated_O matrixA vectorB :
  eliminated matrixA vectorB 0 = Ok (augment matrixA vectorB).
Proof. done. Qed.

Lemma eliminated_S matrixA vectorB i :
  eliminated matrixA vectorB (S i) =
    (m <- eliminated matrixA vectorB i ;; eliminateColumn (length matrixA) m i).
Proof.
  unfold eliminated. rewrite range_snoc by lia. apply forM_snoc.
Qed.


Lemma augmented_augment matrixA vectorB :
  square matrixA → augmented (length matrixA) (augment matrixA vectorB).
Proof.
  intros Hsq. split.
  - unfold augment. by rewrite length_imap.
  - apply Forall_lookup_2. intros r row.
    unfold augment. rewrite list_lookup_imap.
    destruct (matrixA !! r) as [rowA|] eqn:Hr; [|done].
    intros [= <-]. rewrite length_app. simpl.
    rewrite (Forall_lookup_1 _ _ _ _ Hsq Hr). lia.
Qed.

Lemma entry_augment matrixA vectorB r c :
  square matrixA → r < length matrixA →
  entry (augment matrixA vectorB) r c =
    if decide (c < length matrixA) then entry matrixA r c
    else if decide (c = length matrixA) then default 0%Qc (vectorB !! r)
    else 0%Qc.
Proof.
  intros Hsq Hr. unfold entry, augment. rewrite list_lookup_imap.
  destruct (lookup_lt_is_Some_2 matrixA r Hr) as [row Hrow].
  rewrite Hrow. simpl.
  pose proof (Forall_lookup_1 _ _ _ _ Hsq Hrow) as Hlen. simpl in Hlen.
  destruct (decide (c < length matrixA)).
  - by rewrite lookup_app_l by lia.
  - rewrite lookup_app_r by lia. rewrite Hlen.
    destruct (decide (c = length matrixA)) as [->|Hne].
    + by rewrite Nat.sub_diag.
    + replace (c - length matrixA) with (S (c - length matrixA - 1)) by lia.
      done.
Qed.

Lemma eliminated_correct matrixA vectorB i m :
  square matrixA → i ≤ length matrixA →
  eliminated matrixA vectorB i = Ok m →
  augmented (length matrixA) m ∧ unitColumns (length matrixA) i m ∧
  ∀ xs, satisfies (length matrixA) m xs →
        satisfies (length matrixA) (augment matrixA vectorB) xs.
Proof.
  intros Hsq. revert m. induction i as [|i IH]; intros m Hi.
  - rewrite eliminated_O. intros [= <-].
    split; [by apply augmented_augment|]. split; [|done].
    intros r c _ Hc. lia.
  - rewrite eliminated_S.
    destruct (eliminated matrixA vectorB i) as [m0|e] eqn:Hprev; [|done].
    simpl. intros Hstep.
    destruct (IH m0) as (Hm0 & Hu0 & Hs0); [lia|done|].
    assert (i < length matrixA) as Hlt by lia.
    destruct (eliminateColumn_correct _ _ _ _ Hm0 Hlt Hu0 Hstep)
      as (Hm & Hu & Hs).
    split; [done|]. split; [done|]. intros xs Hxs. by apply Hs0, Hs.
Qed.


(** ** The solver *)

Lemma solveLinearSystem_unfold matrixA vectorB :
  solveLinearSystem matrixA vectorB =
    (m <- eliminated matrixA vectorB (length matrixA) ;;
     Ok (lastColumn (length matrixA) m)).
Proof. done. Qed.




(** ** calculatePolynomialRegression: the normal equations *)

Lemma calculatePolynomialRegression_unfold points degree :
  calculatePolynomialRegression points degree =
    solveLinearSystem (XtX_of points degree) (XtY_of points degree).
Proof. done. Qed.

Lemma XtX_square points degree :
  length (XtX_of points degree) = degree + 1 ∧ square (XtX_of points degree).
Proof.
  assert (length (XtX_of points degree) = degree + 1) as Hlen.
  { unfold XtX_of, gramMatrix. rewrite length_map, length_range. lia. }
  split; [done|]. unfold square. rewrite Hlen.
  unfold XtX_of, gramMatrix. apply Forall_map, Forall_forall. intros i _.
  simpl. rewrite length_map, length_range. lia.
Qed.


(** ** The degree sweep *)

Section SweepProperties.
Variable log : Qc → Qc.
Variable points : list Point.
Variable method : AutoFitMethod.

Local Abbreviation try := (tryDegree log points method).
Local Abbreviation attempt := (attempt log points method).
Local Abbreviation sweepState := (sweepState log points method).
Local Abbreviation sweepInv := (sweepInv log points method).





(** *** What the three variables hold after the degrees [1 .. k] *)





End SweepProperties.

(** ** The formula display *)



(** ** The heap version refines the functional one and keeps its frame *)

Lemma fold_left_sim {S1 S2} (R : S1 → S2 → Prop)
    (f1 : S1 → nat → S1) (f2 : S2 → nat → S2) (ks : list nat) s1 s2 :
  (∀ a b k, R a b → R (f1 a k) (f2 b k)) →
  R s1 s2 → R (fold_left f1 ks s1) (fold_left f2 ks s2).
Proof.
  intros Hstep. revert s1 s2.
  induction ks as [|k ks IH]; intros s1 s2 HR; simpl; [done|].
  by apply IH, Hstep.
Qed.

Lemma entry_rowsOf h m r c : entry (Heap.rowsOf h m) r c = Heap.getEntry h m r c.
Proof.
  unfold entry, Heap.rowsOf, Heap.getEntry. rewrite list_lookup_fmap.
  by destruct (m !! r).
Qed.

Lemma numbersAt_insert_ne h l l' o :
  l ≠ l' → Heap.numbersAt (<[l := o]> h) l' = Heap.numbersAt h l'.
Proof. intros Hne. unfold Heap.numbersAt. by rewrite list_lookup_insert_ne. Qed.

Lemma setEntry_rowsOf h m r c v :
  NoDup m → Heap.rowsOf (Heap.setEntry h m r c v) m = set_entry (Heap.rowsOf h m) r c v.
Proof.
  intros Hnd. unfold Heap.setEntry, set_entry, Heap.rowsOf.
  apply list_eq. intros j.
  rewrite list_lookup_alter, !list_lookup_fmap.
  destruct (m !! r) as [l|] eqn:Hr.
  - destruct (decide (r = j)) as [<-|Hne].
    + rewrite Hr. simpl. f_equal.
      destruct (h !! l) as [[xs|refs]|] eqn:Hl.
      * unfold Heap.numbersAt. rewrite Hl.
        rewrite list_lookup_insert_eq; [done|].
        by apply lookup_lt_Some in Hl.
      * unfold Heap.numbersAt. by rewrite Hl.
      * unfold Heap.numbersAt. by rewrite Hl.
    + destruct (m !! j) as [l'|] eqn:Hj; [|done]. simpl. f_equal.
      assert (l ≠ l') as Hll.
      { intros <-. apply Hne. by apply (NoDup_lookup m r j l). }
      destruct (h !! l) as [[xs|refs]|]; [|done..].
      by apply numbersAt_insert_ne.
  - destruct (decide (r = j)) as [<-|Hne]; [by rewrite Hr|done].
Qed.

Lemma setEntry_unchangedBelow base h0 h m r c v :
  Forall (λ l, base ≤ l) m →
  unchangedBelow base h0 h → unchangedBelow base h0 (Heap.setEntry h m r c v).
Proof.
  intros Hm Hh l Hl. unfold Heap.setEntry.
  destruct (m !! r) as [l'|] eqn:Hr; [|by apply Hh].
  pose proof (Forall_lookup_1 _ _ _ _ Hm Hr) as Hbase. simpl in Hbase.
  destruct (h !! l') as [[xs|refs]|]; [|by apply Hh..].
  rewrite list_lookup_insert_ne by lia. by apply Hh.
Qed.

Section Simulation.
Variables (base : nat) (h0 : Heap.heap) (m : list Heap.loc).
Hypothesis Hfresh : freshRows base m.

Lemma sim_getEntry h M r c : sim base h0 m h M → Heap.getEntry h m r c = entry M r c.
Proof. intros [<- _]. by rewrite entry_rowsOf. Qed.

Lemma sim_setEntry h M r c v :
  sim base h0 m h M → sim base h0 m (Heap.setEntry h m r c v) (set_entry M r c v).
Proof.
  destruct Hfresh as [Hnd Hbase]. intros [<- Hh]. split.
  - by apply setEntry_rowsOf.
  - by apply setEntry_unchangedBelow.
Qed.

Lemma sim_findPivot n h M i :
  sim base h0 m h M → Heap.findPivot n h m i = findPivot n M i.
Proof.
  intros Hsim. unfold Heap.findPivot, findPivot.
  apply (fold_left_sim eq); [|done].
  intros a b k <-. by rewrite !(sim_getEntry h M).
Qed.

Lemma sim_makePivotOne n h M i :
  sim base h0 m h M →
  sim base h0 m (Heap.makePivotOne n m h i) (makePivotOne n M i).
Proof.
  intros Hsim. unfold Heap.makePivotOne, makePivotOne.
  apply sim_setEntry.
  apply (fold_left_sim (sim base h0 m)); [|done].
  intros a b k Hab. rewrite !(sim_getEntry a b) by done.
  by apply sim_setEntry.
Qed.

Lemma sim_eliminateRow n i h M k :
  sim base h0 m h M →
  sim base h0 m (Heap.eliminateRow n m i h k) (eliminateRow n i M k).
Proof.
  intros Hsim. unfold Heap.eliminateRow, eliminateRow.
  rewrite (sim_getEntry h M) by done.
  apply (fold_left_sim (sim base h0 m)); [|done].
  intros a b j Hab. rewrite !(sim_getEntry a b) by done.
  by apply sim_setEntry.
Qed.

Lemma sim_eliminateOtherRows n h M i :
  sim base h0 m h M →
  sim base h0 m (Heap.eliminateOtherRows n m h i) (eliminateOtherRows n M i).
Proof.
  intros Hsim. unfold Heap.eliminateOtherRows, eliminateOtherRows.
  apply (fold_left_sim (sim base h0 m)); [|done].
  intros a b k Hab. case_decide; [|done]. by apply sim_eliminateRow.
Qed.
End Simulation.
(** *** Swapping two row references *)

Lemma lookup_swapRows {A} (l : list A) i p r :
  i < length l → p < length l →
  swapRows l i p !! r =
    l !! (if decide (r = i) then p else if decide (r = p) then i else r).
Proof.
  intros Hi Hp. unfold swapRows.
  destruct (lookup_lt_is_Some_2 l p Hp) as [rowMax HrowMax].
  destruct (lookup_lt_is_Some_2 l i Hi) as [rowI HrowI].
  rewrite HrowMax, HrowI.
  destruct (decide (r = p)) as [->|Hrp].
  - rewrite list_lookup_insert_eq by (rewrite length_insert; lia).
    destruct (decide (p = i)) as [->|Hpi]; by rewrite HrowI.
  - rewrite list_lookup_insert_ne by done.
    destruct (decide (r = i)) as [->|Hri].
    + rewrite list_lookup_insert_eq by lia. by rewrite HrowMax.
    + by rewrite list_lookup_insert_ne.
Qed.

Lemma swapRows_outside {A} (l : list A) i p :
  ¬ (i < length l ∧ p < length l) → swapRows l i p = l.
Proof.
  intros Hout. unfold swapRows.
  destruct (l !! p) as [rowMax|] eqn:Hp; [|done].
  destruct (l !! i) as [rowI|] eqn:Hi; [|done].
  apply lookup_lt_Some in Hp, Hi. lia.
Qed.

Lemma map_swapRows {A B} (f : A → B) (l : list A) i p :
  map f (swapRows l i p) = swapRows (map f l) i p.
Proof.
  unfold swapRows. rewrite !list_lookup_fmap.
  destruct (l !! p) as [rowMax|]; [|done].
  destruct (l !! i) as [rowI|]; [|done].
  simpl. by rewrite !list_fmap_insert.
Qed.

Lemma NoDup_swapRows {A} (l : list A) i p : NoDup l → NoDup (swapRows l i p).
Proof.
  intros Hnd.
  destruct (decide (i < length l ∧ p < length l)) as [[Hi Hp]|Hout];
    [|by rewrite swapRows_outside].
  apply NoDup_alt. intros a b v Ha Hb.
  rewrite lookup_swapRows in Ha, Hb by done.
  pose proof (NoDup_lookup _ _ _ _ Hnd Ha Hb) as Heq.
  repeat case_decide; lia.
Qed.

Lemma Forall_swapRows {A} (P : A → Prop) (l : list A) i p :
  Forall P l → Forall P (swapRows l i p).
Proof.
  intros Hl. unfold swapRows.
  destruct (l !! p) as [rowMax|] eqn:Hp; [|done].
  destruct (l !! i) as [rowI|] eqn:Hi; [|done].
  apply Forall_insert; [apply Forall_insert; [done|]|].
  - by apply (Forall_lookup_1 _ _ _ _ Hl Hp).
  - by apply (Forall_lookup_1 _ _ _ _ Hl Hi).
Qed.

Lemma freshRows_swapRows base m i p : freshRows base m → freshRows base (swapRows m i p).
Proof.
  intros [Hnd Hbase]. split; [by apply NoDup_swapRows|by apply Forall_swapRows].
Qed.

(** *** The main loop *)

Lemma eliminateColumn_agrees base h0 n m h M i :
  freshRows base m → sim base h0 m h M →
  agrees base h0 (Heap.eliminateColumn n h m i) (eliminateColumn n M i).
Proof.
  intros Hfresh Hsim. unfold Heap.eliminateColumn, eliminateColumn.
  rewrite (sim_findPivot base h0 m n h M i Hsim).
  set (p := findPivot n M i).
  assert (freshRows base (swapRows m i p)) as Hfresh' by by apply freshRows_swapRows.
  assert (sim base h0 (swapRows m i p) h (swapRows M i p)) as Hsim'.
  { destruct Hsim as [<- Hh]. split; [|done].
    unfold Heap.rowsOf. apply map_swapRows. }
  rewrite (sim_getEntry base h0 _ h (swapRows M i p) i i Hsim').
  case_bool_decide.
  - split; [by destruct Hsim|done].
  - pose proof (sim_eliminateOtherRows base h0 _ Hfresh' n _ _ i
                  (sim_makePivotOne base h0 _ Hfresh' n _ _ i Hsim'))
      as [Hrows Hh].
    split; [done|]. simpl. by split.
Qed.

Lemma eliminateColumns_agrees base h0 n ks m h M :
  freshRows base m → sim base h0 m h M →
  agrees base h0 (Heap.eliminateColumns n ks h m)
         (forM (eliminateColumn n) ks M).
Proof.
  revert m h M. induction ks as [|i ks IH]; intros m h M Hfresh Hsim.
  - destruct Hsim as [Hrows Hh]. split; [done|]. simpl. by split.
  - simpl.
    pose proof (eliminateColumn_agrees base h0 n m h M i Hfresh Hsim)
      as [Hh Hres].
    destruct (Heap.eliminateColumn n h m i) as [h' [m'|e]];
      destruct (eliminateColumn n M i) as [M'|e']; simpl in *; try done.
    destruct Hres as [Hfresh' Hrows']. by apply IH.
Qed.

(** *** Building the augmented rows *)

Lemma numbersAt_app_l h h' l :
  l < length h → Heap.numbersAt (h ++ h') l = Heap.numbersAt h l.
Proof. intros Hl. unfold Heap.numbersAt. by rewrite lookup_app_l. Qed.

Lemma refsAt_app_l h h' l :
  l < length h → Heap.refsAt (h ++ h') l = Heap.refsAt h l.
Proof. intros Hl. unfold Heap.refsAt. by rewrite lookup_app_l. Qed.

Lemma lookup_augment matrixA vectorB i row :
  matrixA !! i = Some row →
  augment matrixA vectorB !! i = Some (row ++ [default 0%Qc (vectorB !! i)]).
Proof. intros Hrow. unfold augment. by rewrite list_lookup_imap, Hrow. Qed.

Lemma augment_prefix h matrixA vectorB k :
  allocated h matrixA vectorB →
  k ≤ length (Heap.refsAt h matrixA) →
  fold_left
    (λ '(h, m) i,
       let row := Heap.numbersAt h (default 0 (Heap.refsAt h matrixA !! i)) in
       let bi := default 0%Qc (Heap.numbersAt h vectorB !! i) in
       let '(h', l) := Heap.alloc h (Heap.Numbers (row ++ [bi])) in
       (h', m ++ [l]))
    (range 0 k) (h, [])
  = (h ++ map Heap.Numbers
            (take k (augment (Heap.matrixAt h matrixA)
                             (Heap.numbersAt h vectorB))),
     seq (length h) k).
Proof.
  intros (HA & Hb & Hrefs) Hk. induction k as [|k IH].
  - simpl. by rewrite app_nil_r.
  - rewrite range_snoc by lia. rewrite fold_left_snoc, IH by lia.
    destruct (lookup_lt_is_Some_2 (Heap.refsAt h matrixA) k ltac:(lia))
      as [l Hl].
    pose proof (Forall_lookup_1 _ _ _ _ Hrefs Hl) as Hlh. simpl in Hlh.
    rewrite seq_S.
    rewrite refsAt_app_l, Hl by done. simpl.
    rewrite !numbersAt_app_l by done.
    unfold Heap.alloc. f_equal.
    + rewrite <- app_assoc. f_equal.
      rewrite (take_S_r _ _ (Heap.numbersAt h l
                ++ [default 0%Qc (Heap.numbersAt h vectorB !! k)])).
      * by rewrite map_app.
      * apply lookup_augment. unfold Heap.matrixAt.
        by rewrite list_lookup_fmap, Hl.
    + do 2 f_equal. rewrite length_app, length_map, length_take.
      unfold augment, Heap.matrixAt. rewrite length_imap, length_map. lia.
Qed.

Lemma augment_agrees h matrixA vectorB :
  allocated h matrixA vectorB →
  let run := Heap.augment h matrixA vectorB in
  freshRows (length h) run.2 ∧
  sim (length h) h run.2 run.1
      (augment (Heap.matrixAt h matrixA) (Heap.numbersAt h vectorB)).
Proof.
  intros Halloc. unfold Heap.augment.
  rewrite augment_prefix by done. simpl.
  set (M := augment (Heap.matrixAt h matrixA) (Heap.numbersAt h vectorB)).
  assert (length M = length (Heap.refsAt h matrixA)) as HlenM.
  { unfold M, augment, Heap.matrixAt. by rewrite length_imap, length_map. }
  rewrite take_ge by lia. split; [|split].
  - split; [apply NoDup_seq|]. apply Forall_seq. intros j Hj. lia.
  - unfold Heap.rowsOf. apply list_eq. intros j.
    rewrite list_lookup_fmap.
    destruct (decide (j < length M)) as [Hj|Hj].
    + rewrite lookup_seq_lt by lia. simpl.
      destruct (lookup_lt_is_Some_2 M j Hj) as [row Hrow]. rewrite Hrow.
      f_equal. unfold Heap.numbersAt.
      rewrite lookup_app_r by lia.
      replace (length h + j - length h) with j by lia.
      by rewrite list_lookup_fmap, Hrow.
    + rewrite lookup_seq_ge by lia.
      by rewrite lookup_ge_None_2 by lia.
  - intros l Hl. by rewrite lookup_app_l.
Qed.
Lemma unchangedBelow_frame h h' matrixA vectorB :
  allocated h matrixA vectorB →
  unchangedBelow (length h) h h' →
  Heap.refsAt h' matrixA = Heap.refsAt h matrixA ∧
  Heap.matrixAt h' matrixA = Heap.matrixAt h matrixA ∧
  Heap.numbersAt h' vectorB = Heap.numbersAt h vectorB.
Proof.
  intros (HA & Hb & Hrefs) Hh.
  assert (∀ l, l < length h → Heap.numbersAt h' l = Heap.numbersAt h l)
    as Hnum by (intros l Hl; unfold Heap.numbersAt; by rewrite Hh).
  assert (Heap.refsAt h' matrixA = Heap.refsAt h matrixA) as Href
    by (unfold Heap.refsAt; by rewrite Hh).
  split; [done|]. split; [|by apply Hnum].
  unfold Heap.matrixAt. rewrite Href.
  apply map_ext_in. intros l Hin. apply Hnum.
  rewrite List.Forall_forall in Hrefs. by apply Hrefs.
Qed.

(** C4: for arrays [matrixA] and [vectorB] of the caller,
    [solveLinearSystem] leaves every object that existed before the call
    as it was, whether it returns or throws: the array of row references,
    every row of the matrix and the vector hold the same values after the
    call.  The rows it works on are objects it allocates itself, and
    what it returns or throws is what the functional reading of the same
    code computes from the values of [matrixA] and [vectorB]. *)
Theorem solveLinearSystem_frame h matrixA vectorB :
  allocated h matrixA vectorB →
  let run := Heap.solveLinearSystem h matrixA vectorB in
  (∀ l, l < length h → run.1 !! l = h !! l) ∧
  Heap.refsAt run.1 matrixA = Heap.refsAt h matrixA ∧
  Heap.matrixAt run.1 matrixA = Heap.matrixAt h matrixA ∧
  Heap.numbersAt run.1 vectorB = Heap.numbersAt h vectorB ∧
  match run.2 with
  | Ok solution =>
      length h ≤ solution ∧
      solveLinearSystem (Heap.matrixAt h matrixA) (Heap.numbersAt h vectorB)
        = Ok (Heap.numbersAt run.1 solution)
  | Err e =>
      solveLinearSystem (Heap.matrixAt h matrixA) (Heap.numbersAt h vectorB)
        = Err e
  end.
Proof.
  intros Halloc run.
  assert (unchangedBelow (length h) h run.1 ∧
          match run.2 with
          | Ok solution =>
              length h ≤ solution ∧
              solveLinearSystem (Heap.matrixAt h matrixA)
                                (Heap.numbersAt h vectorB)
                = Ok (Heap.numbersAt run.1 solution)
          | Err e =>
              solveLinearSystem (Heap.matrixAt h matrixA)
                                (Heap.numbersAt h vectorB) = Err e
          end) as [Hframe Hres].
  { unfold run, Heap.solveLinearSystem.
    destruct (augment_agrees h matrixA vectorB Halloc) as [Hfresh Hsim].
    destruct (Heap.augment h matrixA vectorB) as [h1 m1]. simpl in Hfresh, Hsim.
    set (n := length (Heap.refsAt h matrixA)).
    pose proof (eliminateColumns_agrees (length h) h n (range 0 n) m1 h1 _
                  Hfresh Hsim) as [Hh Hagree].
    rewrite solveLinearSystem_unfold. unfold eliminated.
    replace (length (Heap.matrixAt h matrixA)) with n
      by (unfold Heap.matrixAt; by rewrite length_map).
    destruct (Heap.eliminateColumns n (range 0 n) h1 m1) as [h2 [m2|e]];
      destruct (forM (eliminateColumn n) (range 0 n)
                  (augment (Heap.matrixAt h matrixA)
                           (Heap.numbersAt h vectorB))) as [M2|e'];
      simpl in *; try done.
    - destruct Hagree as [Hfresh2 Hrows2].
      assert (length h ≤ length h2) as Hlen.
      { destruct Halloc as (HA & _).
        apply Nat.nlt_ge. intros Hlt.
        pose proof (Hh (length h2) Hlt) as Heq.
        rewrite lookup_ge_None_2 in Heq by lia.
        symmetry in Heq. apply lookup_ge_None_1 in Heq. lia. }
      split; [|split; [done|]].
      + intros l Hl. rewrite lookup_app_l by lia. by apply Hh.
      + unfold Heap.numbersAt. rewrite list_lookup_middle by done.
        f_equal. unfold lastColumn. apply map_ext. intros i.
        by rewrite <- Hrows2, entry_rowsOf.
    - by subst. }
  split; [done|].
  destruct (unchangedBelow_frame h run.1 matrixA vectorB Halloc Hframe)
    as (Hrefs & Hmat & Hvec).
  done.
Qed.

(** * Concrete runs *)

(** The tolerance is not relative to the size of the entries: the system
    [x = 1] is solved, the same system scaled by [1e-11] is rejected. *)
Lemma tolerance_is_absolute :
  (∃ xs, solveLinearSystem [numbers [1]%Q] (numbers [1]%Q) = Ok xs ∧
         map this xs = [1%Q]) ∧
  solveLinearSystem [numbers [1e-11]%Q] (numbers [1e-11]%Q)
    = Err SingularMatrixError.
Proof.
  split; [|by vm_compute].
  exists (fitOf (solveLinearSystem [numbers [1]%Q] (numbers [1]%Q))).
  split; by vm_compute.
Qed.




Lemma solveLinearSystem_frame_witness :
  allocated callerHeap 2 3 ∧
  let run := Heap.solveLinearSystem callerHeap 2 3 in
  (∀ l, l < length callerHeap → run.1 !! l = callerHeap !! l) ∧
  Heap.matrixAt run.1 2 = regularA ∧
  Heap.numbersAt run.1 3 = regularB ∧
  run.2 = Ok 6.
Proof.
  assert (allocated callerHeap 2 3) as H.
  { split; [simpl; lia|]. split; [simpl; lia|].
    repeat constructor. }
  split; [exact H|]. intros run. unfold run.
  destruct (solveLinearSystem_frame callerHeap 2 3 H)
    as (Hframe & _ & Hmat & Hvec & _).
  split; [exact Hframe|].
  split; [rewrite Hmat; by vm_compute|].
  split; [rewrite Hvec; by vm_compute|].
  by vm_compute.
Defined.

(** * More of the code *)

(** ** The solver: one elimination step, entry by entry *)

Lemma eliminateColumn_entries n m i m' :
  augmented n m → i < n →
  eliminateColumn n m i = Ok m' →
  let p := findPivot n m i in
  i ≤ p < n ∧ swapped m i p i i ≠ 0%Qc ∧ augmented n m' ∧
  ∀ r c, entry m' r c =
         if decide (r = i) then pivotRow n m i p c
         else if decide (r < n ∧ i ≤ c ≤ n)
              then (swapped m i p r c
                    - swapped m i p r i * pivotRow n m i p c)%Qc
              else swapped m i p r c.
Proof.
  intros Hm Hi. rewrite eliminateColumn_unfold by done.
  case_bool_decide as Htol; [done|]. intros [= <-].
  destruct (findPivot_spec n m i Hi) as [Hp _]. intros p.
  assert (augmented n (swapRows m i p)) as Hs by by apply augmented_swapRows.
  assert (∀ r c, entry (swapRows m i p) r c = swapped m i p r c) as Hsw
    by (intros; apply (entry_swapRows n); (done || lia)).
  destruct (makePivotOne_spec n _ i Hs Hi) as [Hn Hnorm].
  destruct (eliminateOtherRows_spec n _ i Hn Hi) as [He Helim].
  split; [done|]. split; [|split; [done|]].
  - intros H0. apply Htol. unfold selectedPivot. fold p.
    unfold swapped in H0. rewrite decide_True in H0 by done.
    rewrite H0, Qcabs_0. apply tolerance_pos.
  - intros r c. rewrite Helim, !Hnorm, !Hsw. unfold pivotRow.
    repeat case_decide; try lia; try done; ring.
Qed.

(** ** The pivots are those of the coefficient columns *)

Lemma findPivot_ext n m1 m2 i :
  (∀ k, i ≤ k < n → entry m1 k i = entry m2 k i) →
  findPivot n m1 i = findPivot n m2 i.
Proof.
  intros Hcol. unfold findPivot.
  destruct (decide (i < n)) as [Hi|Hi].
  2:{ unfold range. by replace (n - (i + 1)) with 0 by lia. }
  assert (∀ l a, Forall (λ k, i ≤ k < n) l → i ≤ a < n →
            fold_left
              (λ maxRow k,
                 if bool_decide (Qcabs (entry m1 maxRow i)
                                 < Qcabs (entry m1 k i))%Qc
                 then k else maxRow) l a
            = fold_left
                (λ maxRow k,
                   if bool_decide (Qcabs (entry m2 maxRow i)
                                   < Qcabs (entry m2 k i))%Qc
                   then k else maxRow) l a) as Hloop.
  { induction l as [|k l IH]; intros a Hl Ha; [done|].
    apply list.Forall_cons in Hl as [Hk Hl]. simpl.
    rewrite (Hcol a Ha), (Hcol k Hk).
    case_bool_decide; by apply IH. }
  apply Hloop; [|lia].
  apply list.Forall_forall. intros k Hk%elem_of_range. lia.
Qed.

Lemma eliminateColumn_sameCoefficients n m1 m2 i :
  augmented n m1 → augmented n m2 → i < n →
  sameCoefficients n m1 m2 →
  match eliminateColumn n m1 i, eliminateColumn n m2 i with
  | Ok m1', Ok m2' => sameCoefficients n m1' m2'
  | Err e1, Err e2 => e1 = e2
  | _, _ => False
  end.
Proof.
  intros Hm1 Hm2 Hi Hsame.
  assert (findPivot n m1 i = findPivot n m2 i) as Hp.
  { apply findPivot_ext. intros k Hk. apply Hsame; lia. }
  destruct (findPivot_spec n m1 i Hi) as [Hp1 _].
  assert (∀ r c, r < n → c < n →
            swapped m1 i (findPivot n m1 i) r c
            = swapped m2 i (findPivot n m1 i) r c) as Hsw.
  { intros r c Hr Hc. unfold swapped. apply Hsame; [|done].
    repeat case_decide; lia. }
  pose proof (eliminateColumn_entries n m1 i) as H1.
  pose proof (eliminateColumn_entries n m2 i) as H2.
  rewrite !eliminateColumn_unfold in * by done.
  unfold selectedPivot in *. rewrite <- Hp in *.
  rewrite <- (Hsame (findPivot n m1 i) i) in * by lia.
  case_bool_decide; [done|].
  destruct (H1 _ Hm1 Hi eq_refl) as (_ & _ & _ & He1).
  destruct (H2 _ Hm2 Hi eq_refl) as (_ & _ & _ & He2).
  intros r c Hr Hc. rewrite He1, He2. unfold pivotRow.
  rewrite !Hsw by lia. done.
Qed.

Lemma eliminated_sameCoefficients matrixA vectorB vectorB' i :
  square matrixA → i ≤ length matrixA →
  match eliminated matrixA vectorB i, eliminated matrixA vectorB' i with
  | Ok m, Ok m' => sameCoefficients (length matrixA) m m'
  | Err e, Err e' => e = e'
  | _, _ => False
  end.
Proof.
  intros Hsq. induction i as [|i IH]; intros Hi.
  - rewrite !eliminated_O. intros r c Hr Hc.
    by rewrite !entry_augment, !decide_True by done.
  - rewrite !eliminated_S. specialize (IH ltac:(lia)).
    destruct (eliminated matrixA vectorB i) as [m|e] eqn:H1,
             (eliminated matrixA vectorB' i) as [m'|e'] eqn:H2;
      try done.
    simpl.
    assert (i ≤ length matrixA) as Hle by lia.
    destruct (eliminated_correct _ _ _ _ Hsq Hle H1) as (Hm & _).
    destruct (eliminated_correct _ _ _ _ Hsq Hle H2) as (Hm' & _).
    apply eliminateColumn_sameCoefficients; (done || lia).
Qed.

Lemma solveLinearSystem_same_outcome matrixA vectorB vectorB' :
  square matrixA →
  match solveLinearSystem matrixA vectorB,
        solveLinearSystem matrixA vectorB' with
  | Ok _, Ok _ => True
  | Err e, Err e' => e = e'
  | _, _ => False
  end.
Proof.
  intros Hsq. rewrite !solveLinearSystem_unfold.
  pose proof (eliminated_sameCoefficients matrixA vectorB vectorB'
                (length matrixA) Hsq (Nat.le_refl _)) as H.
  destruct (eliminated matrixA vectorB _), (eliminated matrixA vectorB' _);
    done.
Qed.

(** X3: whether [solveLinearSystem] throws is decided by the matrix alone:
    with two right-hand sides it throws the same error or returns in both
    runs (the pivot search and the tolerance test never read the last
    column). *)
Theorem solveLinearSystem_throws_by_matrix matrixA vectorB vectorB' :
  square matrixA →
  (∀ e, solveLinearSystem matrixA vectorB = Err e
        ↔ solveLinearSystem matrixA vectorB' = Err e) ∧
  ((∃ xs, solveLinearSystem matrixA vectorB = Ok xs)
   ↔ ∃ xs', solveLinearSystem matrixA vectorB' = Ok xs').
Proof.
  intros Hsq.
  pose proof (solveLinearSystem_same_outcome matrixA vectorB vectorB' Hsq)
    as H.
  destruct (solveLinearSystem matrixA vectorB) as [xs|e],
           (solveLinearSystem matrixA vectorB') as [xs'|e']; try done.
  - split; [done|]. split; intros _; by eexists.
  - subst e'. split; [done|]. split; intros [? [=]].
Qed.

(** ** The normal equations and the abscissas *)

Lemma XtX_abscissas points points' degree :
  map x points = map x points' →
  XtX_of points degree = XtX_of points' degree.
Proof.
  intros Hx. unfold XtX_of.
  assert (length points = length points') as ->.
  { by rewrite <- (length_map x points), Hx, length_map. }
  assert (designMatrix points (degree + 1)
          = designMatrix points' (degree + 1)) as ->; [|done].
  assert (∀ pts, designMatrix pts (degree + 1)
                 = map (λ a, map (λ j, Qcpower a j) (range 0 (degree + 1)))
                       (map x pts)) as Hdesign.
  { intros pts. unfold designMatrix. by rewrite map_map. }
  by rewrite !Hdesign, Hx.
Qed.

Lemma regression_same_outcome points points' degree :
  map x points = map x points' →
  match calculatePolynomialRegression points degree,
        calculatePolynomialRegression points' degree with
  | Ok _, Ok _ => True
  | Err e, Err e' => e = e'
  | _, _ => False
  end.
Proof.
  intros Hx. rewrite !calculatePolynomialRegression_unfold.
  rewrite (XtX_abscissas _ _ _ Hx).
  destruct (XtX_square points' degree) as [_ Hsq].
  apply (solveLinearSystem_same_outcome _ _ _ Hsq).
Qed.

(** X8: whether the regression throws is decided by the abscissas and the
    degree: two point lists with the same abscissas in the same order
    both make it throw the same error, or both make it return. *)
Theorem calculatePolynomialRegression_throws_by_abscissas
    points points' degree :
  map x points = map x points' →
  (∀ e, calculatePolynomialRegression points degree = Err e
        ↔ calculatePolynomialRegression points' degree = Err e) ∧
  ((∃ c, calculatePolynomialRegression points degree = Ok c)
   ↔ ∃ c', calculatePolynomialRegression points' degree = Ok c').
Proof.
  intros Hx.
  pose proof (regression_same_outcome points points' degree Hx) as H.
  destruct (calculatePolynomialRegression points degree) as [c|e],
           (calculatePolynomialRegression points' degree) as [c'|e'];
    try done.
  - split; [done|]. split; intros _; by eexists.
  - subst e'. split; [done|]. split; intros [? [=]].
Qed.

(** ** PrettyFormula: the loop as a filter *)

Lemma termParts_nonempty isFirstTerm coeff power :
  termParts isFirstTerm coeff power ≠ [].
Proof.
  unfold termParts. destruct power as [|power].
  - unfold showCoeff. rewrite (bool_decide_eq_true_2 (0 = 0)) by done.
    rewrite orb_true_r. intros H%app_eq_nil. by destruct H as [_ H].
  - rewrite (bool_decide_eq_true_2 (0 < S power)) by lia.
    intros H%app_eq_nil. destruct H as [_ H%app_eq_nil]. by destruct H.
Qed.


Lemma partsOf_nil isFirstTerm terms :
  partsOf isFirstTerm terms = [] ↔ terms = [].
Proof.
  destruct terms as [|[power coeff] rest]; [done|]. simpl. split; [|done].
  intros [H _]%app_eq_nil. by apply termParts_nonempty in H.
Qed.

(** The loop of the component from index [k] on, with [parts] so far. *)
Lemma formulaParts_loop highestPower l k parts :
  fold_left
    (λ parts '(index, coeff),
       let power := highestPower - index in
       if bool_decide (Qcabs coeff < zeroTolerance)%Qc then parts
       else parts ++ termParts (bool_decide (length parts = 0)) coeff power)
    (imap (λ i, pair (k + i)) l) parts
  = parts
    ++ partsOf (bool_decide (length parts = 0))
         (filter (λ t, ¬ (Qcabs t.2 < zeroTolerance)%Qc)
                 (imap (λ i coeff, (highestPower - (k + i), coeff)) l)).
Proof.
  revert k parts. induction l as [|coeff l IH]; intros k parts.
  - simpl. by rewrite app_nil_r.
  - rewrite !imap_cons.
    rewrite (imap_ext ((λ i, pair (k + i)) ∘ S) (λ i, pair (S k + i)))
      by (intros; simpl; f_equal; lia).
    rewrite (imap_ext ((λ i coeff, (highestPower - (k + i), coeff)) ∘ S)
                      (λ i coeff, (highestPower - (S k + i), coeff)))
      by (intros; simpl; do 2 f_equal; lia).
    cbn [fold_left]. rewrite IH. cbv beta iota zeta. rewrite Nat.add_0_r.
    case_bool_decide as Hsmall.
    + by rewrite filter_cons_False by (simpl; tauto).
    + rewrite filter_cons_True by done. simpl.
      rewrite (bool_decide_eq_false_2 (length (parts ++ _) = 0)).
      * by rewrite <- app_assoc.
      * rewrite length_app.
        pose proof (termParts_nonempty (bool_decide (length parts = 0))
                      coeff (highestPower - k)) as Hne.
        destruct (termParts _ coeff (highestPower - k)); [done|simpl; lia].
Qed.

Lemma reversed_terms (coefficients : list Qc) :
  imap (λ i coeff, (length (reverse coefficients) - 1 - (0 + i), coeff))
       (reverse coefficients)
  = reverse (imap pair coefficients).
Proof.
  apply list_eq. intros i. rewrite list_lookup_imap, length_reverse.
  destruct (decide (i < length coefficients)) as [Hi|Hi].
  - rewrite !reverse_lookup by (rewrite ?length_imap; lia).
    rewrite list_lookup_imap, length_imap.
    destruct (lookup_lt_is_Some_2 coefficients (length coefficients - S i))
      as [a ->]; [lia|].
    simpl. do 2 f_equal. lia.
  - rewrite !lookup_ge_None_2; [done|..];
      rewrite length_reverse, ?length_imap; lia.
Qed.

Lemma formulaParts_shownTerms coefficients :
  formulaParts coefficients = partsOf true (shownTerms coefficients).
Proof.
  unfold formulaParts, shownTerms. rewrite <- reversed_terms.
  exact (formulaParts_loop _ (reverse coefficients) 0 []).
Qed.

Lemma elem_of_shownTerms coefficients power coeff :
  (power, coeff) ∈ shownTerms coefficients
  ↔ coefficients !! power = Some coeff ∧ ¬ (Qcabs coeff < zeroTolerance)%Qc.
Proof.
  unfold shownTerms. rewrite list_elem_of_filter, elem_of_reverse.
  rewrite elem_of_lookup_imap. simpl. split.
  - intros (Hsmall & i & a & [= -> ->] & Hi). done.
  - intros [Hi Hsmall]. split; [done|]. by exists power, coeff.
Qed.

Lemma shownTerms_nil coefficients :
  shownTerms coefficients = []
  ↔ Forall (λ coeff, (Qcabs coeff < zeroTolerance)%Qc) coefficients.
Proof.
  rewrite list.Forall_forall. split.
  - intros Hnil coeff [power Hp]%list_elem_of_lookup_1.
    destruct (decide (Qcabs coeff < zeroTolerance)%Qc) as [|Hbig]; [done|].
    assert ((power, coeff) ∈ shownTerms coefficients) as Hin
      by by apply elem_of_shownTerms.
    rewrite Hnil in Hin. by apply elem_of_nil in Hin.
  - intros Hall. destruct (shownTerms coefficients) as [|[power coeff] rest]
      eqn:Hshown; [done|].
    assert ((power, coeff) ∈ shownTerms coefficients) as Hin
      by (rewrite Hshown; left).
    apply elem_of_shownTerms in Hin as [Hp Hbig].
    destruct Hbig. apply Hall. by eapply list_elem_of_lookup_2.
Qed.





Lemma shownTerms_padded coefficients zs :
  Forall (λ coeff, (Qcabs coeff < zeroTolerance)%Qc) zs →
  shownTerms (coefficients ++ zs) = shownTerms coefficients.
Proof.
  intros Hsmall. unfold shownTerms.
  rewrite imap_app, reverse_app, list.filter_app.
  assert (filter (λ t : nat * Qc, ¬ (Qcabs t.2 < zeroTolerance)%Qc)
            (reverse (imap (λ n, pair (length coefficients + n)) zs)) = [])
    as ->; [|done].
  destruct (filter _ _) as [|[power coeff] rest] eqn:Hf; [done|].
  assert ((power, coeff) ∈ filter
            (λ t : nat * Qc, ¬ (Qcabs t.2 < zeroTolerance)%Qc)
            (reverse (imap (λ n, pair (length coefficients + n)) zs))) as Hin
    by (rewrite Hf; left).
  apply list_elem_of_filter in Hin as [Hbig Hin].
  apply elem_of_reverse, elem_of_lookup_imap in Hin
    as (i & a & [= -> ->] & Hi).
  destruct Hbig. rewrite list.Forall_forall in Hsmall. apply Hsmall.
  by eapply list_elem_of_lookup_2.
Qed.

Lemma PrettyFormula_unfold coefficients className :
  PrettyFormula coefficients className =
    match coefficients with
    | [] => ZeroSpan className
    | _ :: _ =>
        match shownTerms coefficients with
        | [] => ZeroBox className
        | terms => Terms className (partsOf true terms)
        end
    end.
Proof.
  unfold PrettyFormula. destruct coefficients as [|coeff coefficients];
    [done|].
  rewrite (bool_decide_eq_false_2 (length (coeff :: coefficients) = 0))
    by done.
  rewrite formulaParts_shownTerms.
  destruct (shownTerms (coeff :: coefficients)) as [|t terms] eqn:Hterms;
    [done|].
  rewrite bool_decide_eq_false_2; [done|].
  intros Hlen%length_zero_iff_nil. by apply partsOf_nil in Hlen.
Qed.




(** X21: which of its three elements [PrettyFormula] returns: the plain
    zero for an empty coefficient list, the boxed zero for a non-empty
    list whose coefficients are all below [1e-9] in absolute value, and
    the formula with a non-empty list of parts as soon as one coefficient
    is not. *)
Theorem PrettyFormula_cases coefficients className :
  (PrettyFormula coefficients className = ZeroSpan className
   ↔ coefficients = []) ∧
  (PrettyFormula coefficients className = ZeroBox className
   ↔ coefficients ≠ []
     ∧ Forall (λ coeff, (Qcabs coeff < zeroTolerance)%Qc) coefficients) ∧
  ((∃ parts, PrettyFormula coefficients className = Terms className parts)
   ↔ Exists (λ coeff, ¬ (Qcabs coeff < zeroTolerance)%Qc) coefficients) ∧
  (∀ parts, PrettyFormula coefficients className = Terms className parts →
            parts = formulaParts coefficients ∧ parts ≠ []).
Proof.
  rewrite PrettyFormula_unfold, formulaParts_shownTerms.
  rewrite <- shownTerms_nil.
  assert (Exists (λ coeff, ¬ (Qcabs coeff < zeroTolerance)%Qc) coefficients
          ↔ shownTerms coefficients ≠ []) as ->.
  { rewrite list.Exists_exists. split.
    - intros (coeff & [power Hp]%list_elem_of_lookup_1 & Hbig) Hnil.
      assert ((power, coeff) ∈ shownTerms coefficients) as Hin
        by by apply elem_of_shownTerms.
      rewrite Hnil in Hin. by apply elem_of_nil in Hin.
    - destruct (shownTerms coefficients) as [|[power coeff] rest] eqn:Hshown;
        [done|].
      intros _.
      assert ((power, coeff) ∈ shownTerms coefficients) as Hin
        by (rewrite Hshown; left).
      apply elem_of_shownTerms in Hin as [Hp Hbig].
      exists coeff. split; [by eapply list_elem_of_lookup_2|done]. }
  destruct coefficients as [|coeff coefficients].
  { split; [done|]. split; [|split]; try done.
    - split; [done|]. by intros [? _].
    - split; [by intros [? ?]|done]. }
  destruct (shownTerms (coeff :: coefficients)) as [|t terms] eqn:Hterms.
  { split; [done|]. split; [done|]. split; [|done].
    split; [by intros [? ?]|done]. }
  split; [done|]. split; [split; [done|by intros [_ ?]]|].
  split; [split; [done|intros _; by eexists]|].
  intros parts Hparts. injection Hparts as <-. split; [done|].
  intros Hnil. by apply (proj1 (partsOf_nil true (t :: terms))) in Hnil.
Qed.

(** X22: coefficients below [1e-9] in absolute value appended above the
    highest power of a non-empty coefficient list change nothing of what
    is displayed. *)
Theorem PrettyFormula_padding coefficients zs className :
  coefficients ≠ [] →
  Forall (λ coeff, (Qcabs coeff < zeroTolerance)%Qc) zs →
  PrettyFormula (coefficients ++ zs) className
  = PrettyFormula coefficients className.
Proof.
  intros Hne Hsmall. rewrite !PrettyFormula_unfold.
  rewrite shownTerms_padded by done.
  by destruct coefficients.
Qed.


(** * Concrete runs of the further properties *)

Lemma solveLinearSystem_throws_by_matrix_witness :
  square singularA ∧
  (∀ e, solveLinearSystem singularA regularB = Err e
        ↔ solveLinearSystem singularA (numbers [0; 0]%Q) = Err e).
Proof.
  assert (square singularA) as H by repeat constructor.
  split; [exact H|].
  exact (proj1 (solveLinearSystem_throws_by_matrix singularA regularB
                  (numbers [0; 0]%Q) H)).
Defined.

Lemma calculatePolynomialRegression_throws_by_abscissas_witness :
  map x line = map x parabola ∧
  ((∃ c, calculatePolynomialRegression line 1 = Ok c)
   ↔ ∃ c', calculatePolynomialRegression parabola 1 = Ok c').
Proof.
  split; [reflexivity|].
  exact (proj2 (calculatePolynomialRegression_throws_by_abscissas
                  line parabola 1 eq_refl)).
Defined.

Lemma PrettyFormula_padding_witness :
  ([Q2Qc 2; Q2Qc (-3)] ≠ [] ∧
   Forall (λ coeff, (Qcabs coeff < zeroTolerance)%Qc) [Q2Qc 0; Q2Qc 1e-10]) ∧
  PrettyFormula ([Q2Qc 2; Q2Qc (-3)] ++ [Q2Qc 0; Q2Qc 1e-10]) "text-xl"
  = PrettyFormula [Q2Qc 2; Q2Qc (-3)] "text-xl".
Proof.
  assert ([Q2Qc 2; Q2Qc (-3)] ≠ []) as H1 by discriminate.
  assert (Forall (λ coeff, (Qcabs coeff < zeroTolerance)%Qc)
                 [Q2Qc 0; Q2Qc 1e-10]) as H2
    by (repeat constructor; by vm_compute).
  split; [exact (conj H1 H2)|].
  exact (PrettyFormula_padding [Q2Qc 2; Q2Qc (-3)] [Q2Qc 0; Q2Qc 1e-10]
           "text-xl" H1 H2).
Defined.

(** * The code on doubles *)

(** ** The order of the doubles *)

Lemma SFltb_trans a b c : SFltb a b = true → SFltb b c = true → SFltb a c = true.
Proof.
  unfold SFltb, SFcompare.
  destruct a as [sa|sa| |sa ma ea], b as [sb|sb| |sb mb eb],
           c as [sc|sc| |sc mc ec];
    repeat match goal with s : bool |- _ => destruct s end;
    try done.
  all: change (IntDef.Z.compare ?p ?q) with (Z.compare p q).
  all: change (PosDef.Pos.compare_cont Eq ?p ?q) with (Pos.compare p q).
  all: destruct (Z.compare_spec ea eb), (Z.compare_spec eb ec),
         (Z.compare_spec ea ec);
       try done; try lia; subst.
  all: destruct (Pos.compare_spec ma mb), (Pos.compare_spec mb mc),
         (Pos.compare_spec ma mc);
       try done; try lia.
Qed.

Lemma SFltb_irrefl a : SFltb a a = false.
Proof.
  unfold SFltb, SFcompare.
  destruct a as [s|s| |s m e]; [by destruct s..|done|].
  change (IntDef.Z.compare ?p ?q) with (Z.compare p q).
  change (PosDef.Pos.compare_cont Eq ?p ?q) with (Pos.compare p q).
  rewrite Z.compare_refl, Pos.compare_refl. by destruct s.
Qed.

Lemma float_ltb_trans (a b c : float) :
  (a <? b)%float = true → (b <? c)%float = true → (a <? c)%float = true.
Proof. rewrite !FloatAxioms.ltb_spec. apply SFltb_trans. Qed.

Lemma float_ltb_irrefl (a : float) : (a <? a)%float = false.
Proof. rewrite FloatAxioms.ltb_spec. apply SFltb_irrefl. Qed.

(** No number is below [-Infinity]. *)
Lemma float_ltb_neg_infinity (a : float) : (a <? neg_infinity)%float = false.
Proof.
  rewrite FloatAxioms.ltb_spec. unfold SFltb.
  change (Prim2SF neg_infinity) with (S754_infinity true).
  destruct (Prim2SF a) as [s|s| |s m e]; by try destruct s.
Qed.

(** The numbers that are not below [Infinity] are NaN and [Infinity]. *)
Lemma float_ltb_infinity (a : float) :
  (a <? infinity)%float = false ↔ is_nan a = true ∨ a = infinity.
Proof.
  unfold is_nan. rewrite FloatAxioms.ltb_spec, FloatAxioms.eqb_spec.
  unfold SFltb, SFeqb.
  change (Prim2SF infinity) with (S754_infinity false).
  split.
  - destruct (Prim2SF a) as [s|s| |s m e] eqn:Ha; simpl;
      try (by destruct s); try (by left).
    destruct s; [done|]. intros _. right.
    apply Prim2SF_inj. by rewrite Ha.
  - intros [Hnan| ->]; [|done].
    destruct (Prim2SF a) as [s|s| |s m e]; simpl in *; try done.
    + by destruct s.
    + revert Hnan.
      change (IntDef.Z.compare ?p ?q) with (Z.compare p q).
      change (PosDef.Pos.compare_cont Eq ?p ?q) with (Pos.compare p q).
      rewrite Z.compare_refl, Pos.compare_refl. by destruct s.
Qed.

(** A sum with NaN is NaN. *)
Lemma float_add_nan (a : float) : (nan + a)%float = nan.
Proof.
  apply Prim2SF_inj. rewrite FloatAxioms.add_spec.
  change (Prim2SF nan) with S754_nan. done.
Qed.

Section DoubleSolver.
Import Double.

(** ** The shape of the working matrix *)

Lemma double_augmented_lookup n m r :
  augmented n m → r < n → ∃ row, m !! r = Some row ∧ length row = S n.
Proof.
  intros [Hlen Hrows] Hr.
  destruct (lookup_lt_is_Some_2 m r) as [row Hrow]; [lia|].
  exists row. split; [done|].
  by apply (Forall_lookup_1 _ _ _ _ Hrows Hrow).
Qed.

Lemma double_augmented_set_entry n m r c v :
  augmented n m → augmented n (set_entry m r c v).
Proof.
  intros [Hlen Hrows]. split.
  - unfold set_entry. by rewrite length_alter.
  - apply Forall_alter; [done|]. intros row _ Hrow. by rewrite length_insert.
Qed.

Lemma double_entry_set_entry n m r c v r' c' :
  augmented n m → r < n → c ≤ n →
  entry (set_entry m r c v) r' c' =
    if decide (r' = r ∧ c' = c) then v else entry m r' c'.
Proof.
  intros Hm Hr Hc. unfold entry, set_entry.
  destruct (double_augmented_lookup n m r Hm Hr) as (row & Hrow & Hlen).
  destruct (decide (r' = r)) as [->|Hne].
  - rewrite list_lookup_alter_eq, Hrow. simpl.
    destruct (decide (c' = c)) as [->|Hnc].
    + rewrite list_lookup_insert_eq by lia.
      rewrite decide_True by done. done.
    + rewrite list_lookup_insert_ne by done.
      rewrite decide_False by tauto. done.
  - rewrite list_lookup_alter_ne by done.
    rewrite decide_False by tauto. done.
Qed.

(** ** The loops of one turn, entry by entry *)

(** Dividing the pivot row, up to column [hi]. *)
Lemma double_divide_loop n m i hi :
  augmented n m → i < n → i < hi ≤ S n →
  let m' := fold_left (λ m k, set_entry m i k (entry m i k / entry m i i)%float)
                      (range (i + 1) hi) m in
  augmented n m' ∧
  ∀ r c, entry m' r c =
         if decide (r = i ∧ i < c < hi)
         then (entry m i c / entry m i i)%float else entry m r c.
Proof.
  intros Hm Hi Hhi. induction hi as [|hi IH]; [lia|].
  destruct (decide (hi = i)) as [->|Hne].
  - replace (i + 1) with (S i) by lia. rewrite range_empty. simpl.
    split; [done|]. intros r c. rewrite decide_False by lia. done.
  - destruct IH as [Hm' Hent]; [lia|].
    rewrite range_snoc by lia. rewrite fold_left_snoc.
    set (m1 := fold_left _ (range (i + 1) hi) m) in *.
    split; [by apply double_augmented_set_entry|].
    intros r c. rewrite (double_entry_set_entry n) by (done || lia).
    rewrite !Hent.
    destruct (decide (r = i ∧ c = hi)) as [[-> ->]|Hn1].
    + rewrite decide_False by lia. rewrite decide_False by lia.
      rewrite decide_True by lia. done.
    + destruct (decide (r = i ∧ i < c < hi)) as [[-> ?]|Hn2].
      * rewrite decide_True by lia. done.
      * rewrite decide_False by lia. done.
Qed.

Lemma double_makePivotOne_spec n m i :
  augmented n m → i < n →
  augmented n (makePivotOne n m i) ∧
  ∀ r c, entry (makePivotOne n m i) r c =
         if decide (r = i)
         then if decide (c = i) then 1%float
              else if decide (i < c ≤ n) then (entry m i c / entry m i i)%float
              else entry m i c
         else entry m r c.
Proof.
  intros Hm Hi. unfold makePivotOne.
  destruct (double_divide_loop n m i (n + 1) Hm Hi) as [Hm' Hent]; [lia|].
  split; [by apply double_augmented_set_entry|].
  intros r c. rewrite (double_entry_set_entry n) by (done || lia).
  rewrite Hent.
  destruct (decide (r = i)) as [->|Hr].
  - destruct (decide (c = i)) as [->|Hc].
    + rewrite decide_True by done. done.
    + rewrite decide_False by tauto.
      destruct (decide (i < c ≤ n)).
      * rewrite decide_True by lia. done.
      * rewrite decide_False by lia. done.
  - rewrite decide_False by tauto. rewrite decide_False by tauto. done.
Qed.

(** Subtracting a multiple of the pivot row from row [k], up to column [hi]. *)
Lemma double_subtract_loop n m i k factor hi :
  augmented n m → i < n → k < n → k ≠ i → i ≤ hi ≤ S n →
  let m' := fold_left
              (λ m j, set_entry m k j (entry m k j - factor * entry m i j)%float)
              (range i hi) m in
  augmented n m' ∧
  ∀ r c, entry m' r c =
         if decide (r = k ∧ i ≤ c < hi)
         then (entry m k c - factor * entry m i c)%float else entry m r c.
Proof.
  intros Hm Hi Hk Hki Hhi. induction hi as [|hi IH].
  - assert (i = 0) as -> by lia. rewrite range_empty. simpl.
    split; [done|]. intros r c. rewrite decide_False by lia. done.
  - destruct (decide (S hi = i)) as [<-|Hne].
    { rewrite range_empty. simpl. split; [done|].
      intros r c. rewrite decide_False by lia. done. }
    destruct IH as [Hm' Hent]; [lia|].
    rewrite range_snoc by lia. rewrite fold_left_snoc.
    set (m1 := fold_left _ (range i hi) m) in *.
    split; [by apply double_augmented_set_entry|].
    intros r c. rewrite (double_entry_set_entry n) by (done || lia).
    rewrite !Hent.
    destruct (decide (r = k ∧ c = hi)) as [[-> ->]|Hn1].
    + rewrite decide_False by lia. rewrite decide_False by lia.
      rewrite decide_True by lia. done.
    + destruct (decide (r = k ∧ i ≤ c < hi)) as [[-> ?]|Hn2].
      * rewrite decide_True by lia. done.
      * rewrite decide_False by lia. done.
Qed.

Lemma double_eliminateRow_spec n m i k :
  augmented n m → i < n → k < n → k ≠ i →
  augmented n (eliminateRow n i m k) ∧
  ∀ r c, entry (eliminateRow n i m k) r c =
         if decide (r = k ∧ i ≤ c ≤ n)
         then (entry m k c - entry m k i * entry m i c)%float else entry m r c.
Proof.
  intros Hm Hi Hk Hki. unfold eliminateRow.
  destruct (double_subtract_loop n m i k (entry m k i) (n + 1)) as [Hm' Hent];
    [done..|lia|].
  split; [done|]. intros r c. rewrite Hent.
  destruct (decide (r = k ∧ i ≤ c ≤ n)).
  - rewrite decide_True by lia. done.
  - rewrite decide_False by lia. done.
Qed.

(** The rows below [hi] other than the pivot row have been reduced. *)
Lemma double_eliminate_loop n m i hi :
  augmented n m → i < n → hi ≤ n →
  let m' := fold_left (λ m k, if decide (k ≠ i) then eliminateRow n i m k else m)
                      (range 0 hi) m in
  augmented n m' ∧
  ∀ r c, entry m' r c =
         if decide (r ≠ i ∧ r < hi ∧ i ≤ c ≤ n)
         then (entry m r c - entry m r i * entry m i c)%float else entry m r c.
Proof.
  intros Hm Hi Hhi. induction hi as [|hi IH].
  - rewrite range_empty. simpl. split; [done|].
    intros r c. rewrite decide_False by lia. done.
  - destruct IH as [Hm' Hent]; [lia|].
    rewrite range_snoc by lia. rewrite fold_left_snoc.
    set (m1 := fold_left _ (range 0 hi) m) in *.
    destruct (decide (hi ≠ i)) as [Hne|Heq].
    + destruct (double_eliminateRow_spec n m1 i hi) as [Hm2 Hent2];
        [done|lia..|].
      split; [done|]. intros r c. rewrite Hent2, !Hent.
      destruct (decide (r = hi ∧ i ≤ c ≤ n)) as [[-> ?]|Hn1].
      * rewrite !decide_False by lia. rewrite decide_True by lia. done.
      * destruct (decide (r ≠ i ∧ r < hi ∧ i ≤ c ≤ n)).
        -- rewrite decide_True by lia. done.
        -- rewrite decide_False by lia. done.
    + split; [done|]. intros r c. rewrite Hent.
      destruct (decide (r ≠ i ∧ r < hi ∧ i ≤ c ≤ n)).
      * rewrite decide_True by lia. done.
      * rewrite decide_False by lia. done.
Qed.

Lemma double_eliminateOtherRows_spec n m i :
  augmented n m → i < n →
  augmented n (eliminateOtherRows n m i) ∧
  ∀ r c, entry (eliminateOtherRows n m i) r c =
         if decide (r ≠ i ∧ r < n ∧ i ≤ c ≤ n)
         then (entry m r c - entry m r i * entry m i c)%float else entry m r c.
Proof. intros Hm Hi. by apply double_eliminate_loop. Qed.

Lemma double_entry_swapRows n m i p r c :
  augmented n m → i < n → p < n →
  entry (swapRows m i p) r c = swapped m i p r c.
Proof.
  intros Hm Hi Hp. unfold swapRows, swapped.
  destruct (double_augmented_lookup n m p Hm Hp) as (rowMax & HrowMax & _).
  destruct (double_augmented_lookup n m i Hm Hi) as (rowI & HrowI & _).
  destruct Hm as [Hlen _].
  rewrite HrowMax, HrowI. unfold entry.
  destruct (decide (r = p)) as [->|Hrp].
  - rewrite list_lookup_insert_eq by (rewrite length_insert; lia).
    destruct (decide (p = i)) as [->|Hpi]; by rewrite HrowI.
  - rewrite list_lookup_insert_ne by done.
    destruct (decide (r = i)) as [->|Hri].
    + rewrite list_lookup_insert_eq by lia. by rewrite HrowMax.
    + by rewrite list_lookup_insert_ne.
Qed.

Lemma double_augmented_swapRows n (m : matrix) i p :
  augmented n m → augmented n (swapRows m i p).
Proof.
  intros [Hlen Hrows]. unfold swapRows.
  destruct (m !! p) as [rowMax|] eqn:Hp; [|done].
  destruct (m !! i) as [rowI|] eqn:Hi; [|done].
  split; [by rewrite !length_insert|].
  apply Forall_insert; [apply Forall_insert; [done|]|].
  - by apply (Forall_lookup_1 _ _ _ _ Hrows Hp).
  - by apply (Forall_lookup_1 _ _ _ _ Hrows Hi).
Qed.

(** The pivot search returns a row of [i .. n-1]; no entry of column [i]
    in these rows is larger in absolute value than the one in that row. *)
Lemma double_pivot_loop m i hi :
  i < hi →
  let p := fold_left
             (λ maxRow k,
                if (abs (entry m maxRow i) <? abs (entry m k i))%float
                then k else maxRow)
             (range (i + 1) hi) i in
  i ≤ p < hi ∧
  ∀ k, i ≤ k < hi → (abs (entry m p i) <? abs (entry m k i))%float = false.
Proof.
  intros Hhi. induction hi as [|hi IH]; [lia|].
  destruct (decide (hi = i)) as [->|Hne].
  - replace (i + 1) with (S i) by lia. rewrite range_empty. simpl.
    split; [lia|]. intros k Hk. assert (k = i) as -> by lia.
    apply float_ltb_irrefl.
  - destruct IH as [Hp Hmax]; [lia|].
    rewrite range_snoc by lia. rewrite fold_left_snoc.
    set (p := fold_left _ (range (i + 1) hi) i) in *.
    destruct (abs (entry m p i) <? abs (entry m hi i))%float eqn:Hlt.
    + split; [lia|]. intros k Hk.
      destruct (decide (k = hi)) as [->|Hk']; [apply float_ltb_irrefl|].
      destruct (abs (entry m hi i) <? abs (entry m k i))%float eqn:Hlt';
        [|done].
      rewrite <- (Hmax k) by lia. symmetry.
      by apply (float_ltb_trans _ (abs (entry m hi i))).
    + split; [lia|]. intros k Hk.
      destruct (decide (k = hi)) as [->|Hk']; [done|].
      apply Hmax. lia.
Qed.

Lemma double_findPivot_spec n m i :
  i < n →
  i ≤ findPivot n m i < n ∧
  ∀ k, i ≤ k < n →
       (abs (entry m (findPivot n m i) i) <? abs (entry m k i))%float = false.
Proof. intros Hi. by apply double_pivot_loop. Qed.

(** ** One turn *)

Lemma double_eliminateColumn_unfold n m i :
  augmented n m → i < n →
  eliminateColumn n m i =
    if (abs (selectedPivot n m i) <? tolerance)%float
    then Err SingularMatrixError
    else Ok (eliminateOtherRows n
               (makePivotOne n (swapRows m i (findPivot n m i)) i) i).
Proof.
  intros Hm Hi. unfold eliminateColumn, selectedPivot.
  destruct (double_findPivot_spec n m i Hi) as [Hp _].
  rewrite (double_entry_swapRows n) by (done || lia).
  unfold swapped. by rewrite decide_True.
Qed.

Lemma double_eliminateColumn_entries n m i m' :
  augmented n m → i < n →
  eliminateColumn n m i = Ok m' →
  augmented n m' ∧
  ∀ r c, entry m' r c = reduced n m i (findPivot n m i) r c.
Proof.
  intros Hm Hi. rewrite double_eliminateColumn_unfold by done.
  destruct (abs (selectedPivot n m i) <? tolerance)%float; [done|].
  intros [= <-].
  destruct (double_findPivot_spec n m i Hi) as [Hp _].
  set (p := findPivot n m i) in *.
  assert (augmented n (swapRows m i p)) as Hs
    by by apply double_augmented_swapRows.
  assert (∀ r c, entry (swapRows m i p) r c = swapped m i p r c) as Hsw
    by (intros; apply (double_entry_swapRows n); (done || lia)).
  destruct (double_makePivotOne_spec n _ i Hs Hi) as [Hn Hnorm].
  destruct (double_eliminateOtherRows_spec n _ i Hn Hi) as [He Helim].
  split; [done|].
  intros r c. rewrite Helim, !Hnorm, !Hsw. unfold reduced, pivotRow.
  repeat case_decide; try lia; done.
Qed.

(** ** The whole elimination *)

Lemma double_eliminated_O matrixA vectorB :
  eliminated matrixA vectorB 0 = Ok (augment matrixA vectorB).
Proof. done. Qed.

Lemma double_eliminated_S matrixA vectorB i :
  eliminated matrixA vectorB (S i) =
    (m <- eliminated matrixA vectorB i ;; eliminateColumn (length matrixA) m i).
Proof.
  unfold eliminated. rewrite range_snoc by lia. apply forM_snoc.
Qed.

(** Once a turn has thrown, the loop is over. *)
Lemma double_eliminated_Err matrixA vectorB i j e :
  i ≤ j → eliminated matrixA vectorB i = Err e →
  eliminated matrixA vectorB j = Err e.
Proof.
  intros Hij Hi. induction Hij as [|j Hij IH]; [done|].
  by rewrite double_eliminated_S, IH.
Qed.

Lemma double_augmented_augment matrixA vectorB :
  square matrixA → augmented (length matrixA) (augment matrixA vectorB).
Proof.
  intros Hsq. split.
  - unfold augment. by rewrite length_imap.
  - apply Forall_lookup_2. intros r row.
    unfold augment. rewrite list_lookup_imap.
    destruct (matrixA !! r) as [rowA|] eqn:Hr; [|done].
    intros [= <-]. rewrite length_app. simpl.
    rewrite (Forall_lookup_1 _ _ _ _ Hsq Hr). lia.
Qed.

Lemma double_eliminated_augmented matrixA vectorB i m :
  square matrixA → i ≤ length matrixA →
  eliminated matrixA vectorB i = Ok m →
  augmented (length matrixA) m.
Proof.
  intros Hsq. revert m. induction i as [|i IH]; intros m Hi.
  - rewrite double_eliminated_O. intros [= <-].
    by apply double_augmented_augment.
  - rewrite double_eliminated_S.
    destruct (eliminated matrixA vectorB i) as [m0|e] eqn:Hprev; [|done].
    simpl. intros Hstep.
    assert (augmented (length matrixA) m0) as Hm0 by (apply IH; (done || lia)).
    by destruct (double_eliminateColumn_entries _ m0 i m Hm0 ltac:(lia) Hstep).
Qed.

Lemma double_eliminated_progress matrixA vectorB i :
  square matrixA → i ≤ length matrixA →
  (∀ j, j < i → ¬ belowToleranceAt matrixA vectorB j) →
  ∃ m, eliminated matrixA vectorB i = Ok m.
Proof.
  intros Hsq. induction i as [|i IH]; intros Hi Hpiv.
  - eexists. apply double_eliminated_O.
  - destruct IH as [m0 Hprev]; [lia|intros j Hj; apply Hpiv; lia|].
    rewrite double_eliminated_S, Hprev. simpl.
    assert (i ≤ length matrixA) as Hle by lia.
    pose proof (double_eliminated_augmented _ _ _ _ Hsq Hle Hprev) as Hm0.
    rewrite double_eliminateColumn_unfold by (done || lia).
    destruct (abs (selectedPivot (length matrixA) m0 i) <? tolerance)%float
      eqn:Htol; [|by eexists].
    destruct (Hpiv i ltac:(lia)). by exists m0.
Qed.

(** The only error of the solver, and the turn that throws it. *)
Lemma double_eliminated_fails matrixA vectorB i e :
  square matrixA → i ≤ length matrixA →
  eliminated matrixA vectorB i = Err e →
  e = SingularMatrixError ∧ ∃ j, j < i ∧ belowToleranceAt matrixA vectorB j.
Proof.
  intros Hsq. induction i as [|i IH]; intros Hi; [done|].
  rewrite double_eliminated_S.
  destruct (eliminated matrixA vectorB i) as [m0|e0] eqn:Hprev; simpl.
  - assert (i ≤ length matrixA) as Hle by lia.
    pose proof (double_eliminated_augmented _ _ _ _ Hsq Hle Hprev) as Hm0.
    rewrite double_eliminateColumn_unfold by (done || lia).
    destruct (abs (selectedPivot (length matrixA) m0 i) <? tolerance)%float
      eqn:Htol; [|done].
    intros [= <-].
    split; [done|]. exists i. split; [lia|]. by exists m0.
  - intros [= <-]. destruct IH as (He & j & Hj & Hbelow); [lia|done|].
    split; [done|]. exists j. split; [lia|done].
Qed.

(** ** The solver *)

Lemma double_length_lastColumn n m : length (lastColumn n m) = n.
Proof. unfold lastColumn. rewrite length_map, length_range. lia. Qed.

Lemma double_solveLinearSystem_unfold matrixA vectorB :
  solveLinearSystem matrixA vectorB =
    (m <- eliminated matrixA vectorB (length matrixA) ;;
     Ok (lastColumn (length matrixA) m)).
Proof. done. Qed.

Lemma double_solveLinearSystem_length matrixA vectorB xs :
  solveLinearSystem matrixA vectorB = Ok xs → length xs = length matrixA.
Proof.
  rewrite double_solveLinearSystem_unfold.
  destruct (eliminated matrixA vectorB (length matrixA)); [|done].
  simpl. intros [= <-]. apply double_length_lastColumn.
Qed.

Lemma double_solveLinearSystem_progress matrixA vectorB :
  square matrixA →
  (∀ i, i < length matrixA → ¬ belowToleranceAt matrixA vectorB i) →
  ∃ xs, solveLinearSystem matrixA vectorB = Ok xs.
Proof.
  intros Hsq Hpiv. rewrite double_solveLinearSystem_unfold.
  destruct (double_eliminated_progress matrixA vectorB (length matrixA) Hsq
              (Nat.le_refl _) Hpiv) as [m ->].
  by eexists.
Qed.

Lemma double_solveLinearSystem_Err matrixA vectorB e :
  square matrixA →
  solveLinearSystem matrixA vectorB = Err e →
  e = SingularMatrixError ∧
  ∃ i, i < length matrixA ∧ belowToleranceAt matrixA vectorB i.
Proof.
  intros Hsq. rewrite double_solveLinearSystem_unfold.
  destruct (eliminated matrixA vectorB (length matrixA)) as [m|e0] eqn:Hel;
    [done|].
  simpl. intros [= <-].
  by apply (double_eliminated_fails _ _ _ _ Hsq (Nat.le_refl _) Hel).
Qed.

Lemma double_belowTolerance_Err matrixA vectorB i :
  square matrixA → i < length matrixA →
  belowToleranceAt matrixA vectorB i →
  solveLinearSystem matrixA vectorB = Err SingularMatrixError.
Proof.
  intros Hsq Hi (m & Hel & Htol).
  rewrite double_solveLinearSystem_unfold.
  rewrite (double_eliminated_Err matrixA vectorB (S i) _ SingularMatrixError);
    [done|lia|].
  rewrite double_eliminated_S, Hel. simpl.
  assert (i ≤ length matrixA) as Hle by lia.
  pose proof (double_eliminated_augmented _ _ _ _ Hsq Hle Hel) as Hm.
  rewrite double_eliminateColumn_unfold by done.
  by rewrite Htol.
Qed.

(** The pivots of the turns that are over stay 1. *)
Lemma double_eliminated_diagonal matrixA vectorB i m :
  square matrixA → i ≤ length matrixA →
  eliminated matrixA vectorB i = Ok m →
  ∀ j, j < i → entry m j j = 1%float.
Proof.
  intros Hsq. revert m. induction i as [|i IH]; intros m Hi; [lia|].
  rewrite double_eliminated_S.
  destruct (eliminated matrixA vectorB i) as [m0|e] eqn:Hprev; [|done].
  simpl. intros Hstep j Hj.
  assert (i ≤ length matrixA) as Hle by lia.
  pose proof (double_eliminated_augmented _ _ _ _ Hsq Hle Hprev) as Hm0.
  destruct (double_eliminateColumn_entries _ m0 i m Hm0 ltac:(lia) Hstep)
    as [_ Hent].
  destruct (double_findPivot_spec (length matrixA) m0 i ltac:(lia)) as [Hp _].
  rewrite Hent. unfold reduced, pivotRow, swapped.
  destruct (decide (j = i)) as [->|Hne]; [done|].
  rewrite (decide_False (P := _ ∧ _)) by lia.
  rewrite (decide_False (P := j = findPivot _ _ _)) by lia.
  apply (IH m0); (done || lia).
Qed.
End DoubleSolver.

Section DoubleSolved.
Import Double.

(** C2, as the code has it on doubles: for a square system on which no
    turn of the elimination meets a pivot below the tolerance,
    [solveLinearSystem] returns a vector of length [n], the last column of
    the augmented matrix after the [n] turns, with no back-substitution.
    Every turn takes as pivot an entry of column [i] at or below the
    diagonal than which none is larger in absolute value (partial
    pivoting), and leaves the matrix [reduced]: the pivot row divided by
    the pivot, and every other row minus its multiple of the pivot row
    (full reduction); the pivots of the final matrix are 1.  That the
    vector solves the system is not part of it. *)
Theorem solveLinearSystem_reduces matrixA vectorB :
  square matrixA → length vectorB = length matrixA →
  (∀ i, i < length matrixA → ¬ belowToleranceAt matrixA vectorB i) →
  let n := length matrixA in
  ∃ xs m,
    solveLinearSystem matrixA vectorB = Ok xs ∧
    length xs = n ∧
    eliminated matrixA vectorB n = Ok m ∧
    xs = lastColumn n m ∧
    (∀ i, i < n → entry m i i = 1%float) ∧
    ∀ i, i < n →
      ∃ mi mi',
        eliminated matrixA vectorB i = Ok mi ∧
        eliminated matrixA vectorB (S i) = Ok mi' ∧
        let p := findPivot n mi i in
        i ≤ p < n ∧
        (∀ k, i ≤ k < n →
              (abs (entry mi p i) <? abs (entry mi k i))%float = false) ∧
        (abs (entry mi p i) <? tolerance)%float = false ∧
        ∀ r c, entry mi' r c = reduced n mi i p r c.
Proof.
  intros Hsq Hb Hpiv n. unfold n. clear n.
  set (n := length matrixA) in *.
  destruct (double_eliminated_progress matrixA vectorB n Hsq (Nat.le_refl _))
    as [m Hm]; [done|].
  exists (lastColumn n m), m.
  split; [rewrite double_solveLinearSystem_unfold; fold n; by rewrite Hm|].
  split; [apply double_length_lastColumn|].
  split; [done|]. split; [done|]. split.
  { intros i Hi.
    by apply (double_eliminated_diagonal matrixA vectorB n m Hsq
                (Nat.le_refl _) Hm). }
  intros i Hi.
  destruct (double_eliminated_progress matrixA vectorB i Hsq) as [mi Hmi];
    [lia|intros j Hj; apply Hpiv; lia|].
  destruct (double_eliminated_progress matrixA vectorB (S i) Hsq)
    as [mi' Hmi']; [lia|intros j Hj; apply Hpiv; lia|].
  exists mi, mi'. split; [done|]. split; [done|].
  assert (augmented n mi) as Haug
    by (apply (double_eliminated_augmented matrixA vectorB i); (done || lia)).
  destruct (double_findPivot_spec n mi i Hi) as [Hp Hmax].
  split; [done|]. split; [done|]. split.
  - destruct (abs (entry mi (findPivot n mi i) i) <? tolerance)%float
      eqn:Htol; [|done].
    destruct (Hpiv i Hi). by exists mi.
  - rewrite double_eliminated_S, Hmi in Hmi'. simpl in Hmi'.
    by destruct (double_eliminateColumn_entries n mi i mi' Haug Hi Hmi').
Qed.
End DoubleSolved.

(** ** calculatePolynomialRegression: the normal equations *)

Section DoubleRegression.
Import Double.
Variable pow : float → nat → float.

Lemma double_regression_unfold points degree :
  calculatePolynomialRegression pow points degree =
    solveLinearSystem (XtX_of pow points degree) (XtY_of pow points degree).
Proof. done. Qed.

Lemma double_entry_map_map {A} (f : A → nat → float) (rows : list A) lo hi r c :
  entry (map (λ a, map (f a) (range lo hi)) rows) r c =
    default nan
      (a ← rows !! r; if decide (c < hi - lo) then Some (f a (lo + c)) else None).
Proof.
  unfold entry. rewrite list_lookup_fmap.
  destruct (rows !! r) as [a|]; [|done]. simpl.
  rewrite list_lookup_fmap. case_decide as Hc.
  - by rewrite lookup_range.
  - rewrite (lookup_ge_None_2 (range lo hi)); [done|].
    rewrite length_range. lia.
Qed.

Lemma double_entry_designMatrix points n k p j :
  points !! k = Some p → j < n →
  entry (designMatrix pow points n) k j = pow (x p) j.
Proof.
  intros Hk Hj. unfold designMatrix.
  rewrite (double_entry_map_map (λ p j, pow (x p) j)).
  rewrite Hk. simpl. rewrite decide_True by lia. done.
Qed.

Lemma double_entry_transpose n numPoints X i k :
  i < n → k < numPoints →
  entry (transpose n numPoints X) i k = entry X k i.
Proof.
  intros Hi Hk. unfold transpose.
  rewrite (double_entry_map_map (λ i j, entry X j i)).
  rewrite lookup_range by lia. simpl. rewrite decide_True by lia. done.
Qed.

(** A loop over the indices of an array that only reads the element is a
    loop over the elements. *)
Lemma fold_left_indices {A St} (g : St → nat → St) (f : St → A → St)
    (l : list A) a :
  (∀ s k p, l !! k = Some p → g s k = f s p) →
  fold_left g (range 0 (length l)) a = fold_left f l a.
Proof.
  revert a. induction l as [|p l IH] using rev_ind; intros a Hg; [done|].
  rewrite length_app. simpl. replace (length l + 1) with (S (length l)) by lia.
  rewrite range_snoc by lia. rewrite !fold_left_app. simpl.
  rewrite IH.
  - apply Hg. rewrite lookup_app_r by lia. by rewrite Nat.sub_diag.
  - intros s k q Hk. apply Hg. rewrite lookup_app_l; [done|].
    by apply lookup_lt_Some in Hk.
Qed.

Lemma double_XtX_square points degree :
  length (XtX_of pow points degree) = degree + 1 ∧
  square (XtX_of pow points degree).
Proof.
  assert (length (XtX_of pow points degree) = degree + 1) as Hlen.
  { unfold XtX_of, gramMatrix. rewrite length_map, length_range. lia. }
  split; [done|]. unfold square. rewrite Hlen.
  unfold XtX_of, gramMatrix. apply Forall_map, list.Forall_forall. intros i _.
  simpl. rewrite length_map, length_range. lia.
Qed.

Lemma double_XtY_length points degree :
  length (XtY_of pow points degree) = degree + 1.
Proof. unfold XtY_of, momentVector. rewrite length_map, length_range. lia. Qed.

(** [XtX[i][j]] is the sum of [x^i * x^j] over the points, accumulated in
    their order. *)
Lemma double_entry_XtX points degree i j :
  i < degree + 1 → j < degree + 1 →
  entry (XtX_of pow points degree) i j =
    fold_left (λ sum p, sum + pow (x p) i * pow (x p) j)%float points 0%float.
Proof.
  intros Hi Hj. unfold XtX_of, gramMatrix.
  rewrite (double_entry_map_map
    (λ i j, fold_left (λ sum k, sum + entry _ i k * entry _ k j)%float
                      (range 0 (length points)) 0%float)).
  rewrite lookup_range by lia. simpl. rewrite decide_True by lia.
  apply fold_left_indices. intros s k p Hk.
  rewrite double_entry_transpose by (done || by apply lookup_lt_Some in Hk).
  by rewrite !(double_entry_designMatrix _ _ k p).
Qed.

(** [XtY[i]] is the sum of [x^i * y] over the points. *)
Lemma double_lookup_XtY points degree i :
  i < degree + 1 →
  XtY_of pow points degree !! i =
    Some (fold_left (λ sum p, sum + pow (x p) i * y p)%float points 0%float).
Proof.
  intros Hi. unfold XtY_of, momentVector. rewrite list_lookup_fmap.
  rewrite lookup_range by lia. simpl. f_equal.
  apply fold_left_indices. intros s k p Hk.
  rewrite double_entry_transpose by (done || by apply lookup_lt_Some in Hk).
  rewrite (double_entry_designMatrix _ _ k p) by done.
  by rewrite list_lookup_fmap, Hk.
Qed.

Lemma double_regression_length points degree c :
  calculatePolynomialRegression pow points degree = Ok c →
  length c = degree + 1.
Proof.
  rewrite double_regression_unfold. intros Hc.
  apply double_solveLinearSystem_length in Hc.
  by rewrite (proj1 (double_XtX_square points degree)) in Hc.
Qed.

Lemma double_regression_Err points degree e :
  calculatePolynomialRegression pow points degree = Err e →
  e = SingularMatrixError.
Proof.
  rewrite double_regression_unfold. intros He.
  destruct (double_XtX_square points degree) as [_ Hsq].
  by destruct (double_solveLinearSystem_Err _ _ _ Hsq He).
Qed.

(** C1, as the code has it on doubles: [calculatePolynomialRegression]
    hands the normal equations to [solveLinearSystem]: the square matrix
    with the sums of [x^i * x^j] over the points and the vector with the
    sums of [x^i * y], the powers being those of the design matrix
    [X[k][j] = x_k^j].  It returns a vector of length [degree + 1] exactly
    when no turn of the elimination meets a pivot below the tolerance, and
    throws the singular-matrix error, and nothing else, exactly when one
    does.  That the vector minimises the sum of squared residuals is not
    part of it. *)
Theorem calculatePolynomialRegression_normal_equations points degree :
  let n := degree + 1 in
  let XtX := XtX_of pow points degree in
  let XtY := XtY_of pow points degree in
  (∀ k p j, points !! k = Some p → j < n →
            entry (designMatrix pow points n) k j = pow (x p) j) ∧
  (length XtX = n ∧ square XtX ∧ length XtY = n) ∧
  (∀ i j, i < n → j < n →
     entry XtX i j =
       fold_left (λ sum p, sum + pow (x p) i * pow (x p) j)%float
                 points 0%float) ∧
  (∀ i, i < n →
     XtY !! i =
       Some (fold_left (λ sum p, sum + pow (x p) i * y p)%float
                       points 0%float)) ∧
  calculatePolynomialRegression pow points degree = solveLinearSystem XtX XtY ∧
  (∀ c, calculatePolynomialRegression pow points degree = Ok c →
        length c = n) ∧
  (∀ e, calculatePolynomialRegression pow points degree = Err e →
        e = SingularMatrixError) ∧
  ((∃ c, calculatePolynomialRegression pow points degree = Ok c)
   ↔ ∀ i, i < n → ¬ belowToleranceAt XtX XtY i) ∧
  (calculatePolynomialRegression pow points degree = Err SingularMatrixError
   ↔ ∃ i, i < n ∧ belowToleranceAt XtX XtY i).
Proof.
  intros n XtX XtY.
  destruct (double_XtX_square points degree) as [Hlen Hsq].
  fold XtX in Hlen, Hsq. fold n in Hlen.
  assert (calculatePolynomialRegression pow points degree
          = Err SingularMatrixError
          ↔ ∃ i, i < n ∧ belowToleranceAt XtX XtY i) as Herr.
  { rewrite double_regression_unfold. fold XtX XtY. split.
    - intros He. destruct (double_solveLinearSystem_Err _ _ _ Hsq He)
        as (_ & i & Hi & Hbelow).
      exists i. split; [lia|done].
    - intros (i & Hi & Hbelow).
      apply (double_belowTolerance_Err _ _ i); (done || lia). }
  split; [intros k p j; apply double_entry_designMatrix|].
  split; [split; [done|split; [done|apply double_XtY_length]]|].
  split; [apply double_entry_XtX|].
  split; [apply double_lookup_XtY|].
  split; [done|].
  split; [apply double_regression_length|].
  split; [apply double_regression_Err|].
  split; [|done]. split.
  - intros [c Hc] i Hi Hbelow.
    assert (calculatePolynomialRegression pow points degree
            = Err SingularMatrixError) as He
      by (apply Herr; by exists i).
    congruence.
  - intros Hpiv. rewrite double_regression_unfold. fold XtX XtY.
    apply double_solveLinearSystem_progress; [done|].
    intros i Hi. apply Hpiv. lia.
Qed.
End DoubleRegression.

(** ** The degree sweep *)

Section DoubleSweep.
Import Double.
Variable pow : float → nat → float.
Variable log : float → float.
Variable points : list Point.
Variable method : AutoFitMethod.

Local Abbreviation regression := (calculatePolynomialRegression pow points).
Local Abbreviation rssOf := (residualSumOfSquares pow points).
Local Abbreviation scoreOf :=
  (λ d c, criterion log method (length points) (rssOf c) d).
Local Abbreviation try := (tryDegree pow log points method).
Local Abbreviation attempt := (attempt pow log points method).
Local Abbreviation unfit := (unfit pow log points method).
Local Abbreviation sweepState := (sweepState pow log points method).
Local Abbreviation sweepInv := (sweepInv pow log points method).
Local Abbreviation findBestFit := (findBestFitPolynomial pow log points method).

(** The score the body computes is the criterion of the chosen method. *)
Lemma double_tryDegree_attempt st degree :
  try st degree =
    match attempt degree with
    | Threw => st
    | Perfect c =>
        if bool_decide (Sweep.bestDegree st = -1)%Z
        then Sweep.mkState neg_infinity (Z.of_nat degree) c else st
    | Scored c s =>
        if (s <? Sweep.bestScore st)%float
        then Sweep.mkState s (Z.of_nat degree) c else st
    end.
Proof.
  unfold tryDegree, Double.attempt, criterion.
  destruct (regression degree) as [c|e]; [|done].
  simpl. destruct (rssOf c <=? 1e-10)%float; [done|]. by destruct method.
Qed.

Lemma double_attempt_Threw d :
  attempt d = Threw ↔ regression d = Err SingularMatrixError.
Proof.
  unfold Double.attempt.
  destruct (regression d) as [c|e] eqn:Hcalc.
  - simpl. by destruct (rssOf c <=? 1e-10)%float.
  - by rewrite (double_regression_Err _ _ _ _ Hcalc).
Qed.

Lemma double_attempt_Perfect d c :
  attempt d = Perfect c ↔
  regression d = Ok c ∧ (rssOf c <=? 1e-10)%float = true.
Proof.
  unfold Double.attempt.
  destruct (regression d) as [c1|e]; simpl.
  - destruct (rssOf c1 <=? 1e-10)%float eqn:Hrss; split.
    + by intros [= ->].
    + by intros [[= ->] _].
    + done.
    + intros [[= ->] ?]. congruence.
  - split; [done|]. by intros [? _].
Qed.

Lemma double_attempt_Scored d c s :
  attempt d = Scored c s ↔
  regression d = Ok c ∧ (rssOf c <=? 1e-10)%float = false ∧ s = scoreOf d c.
Proof.
  unfold Double.attempt.
  destruct (regression d) as [c1|e]; simpl.
  - destruct (rssOf c1 <=? 1e-10)%float eqn:Hrss; split.
    + done.
    + intros ([= ->] & Hlt & _). congruence.
    + intros Heq. injection Heq as -> <-. done.
    + by intros ([= ->] & _ & ->).
  - split; [done|]. by intros [? _].
Qed.

(** The loop visits the degrees [degree, degree + 1, ...] up to
    [maxDegreeToTest] and stops there, not for lack of fuel. *)
Lemma double_sweepFrom_fold maxDegreeToTest fuel degree st :
  (Z.of_nat (degree + fuel) = maxDegreeToTest + 1)%Z →
  sweepFrom pow log points method maxDegreeToTest fuel degree st =
    fold_left try (range degree (degree + fuel)) st.
Proof.
  revert degree st. induction fuel as [|fuel IH]; intros degree st Hmax.
  - rewrite Nat.add_0_r, range_empty. done.
  - simpl. rewrite bool_decide_eq_true_2 by lia.
    rewrite IH by lia. rewrite (range_cons degree) by lia.
    simpl. do 2 f_equal. lia.
Qed.

Lemma double_sweepState_S k : sweepState (S k) = try (sweepState k) (S k).
Proof.
  unfold Double.sweepState. rewrite (range_snoc 1 (S k)) by lia.
  apply fold_left_snoc.
Qed.

Lemma double_findBestFitPolynomial_unfold :
  findBestFit =
    if bool_decide (length points < 2) then Err InsufficientDataError
    else
      let st := sweepState (maxDegree (length points)) in
      if bool_decide (Sweep.bestDegree st = -1)%Z then Err NoModelFoundError
      else Ok {| bestDegree := Sweep.bestDegree st;
                 coefficients := Sweep.bestCoefficients st |}.
Proof.
  unfold findBestFitPolynomial.
  case_bool_decide as Hmax.
  - rewrite (bool_decide_eq_true_2 (length points < 2)) by lia. done.
  - rewrite (bool_decide_eq_false_2 (length points < 2)) by lia.
    rewrite double_sweepFrom_fold by lia. unfold Double.sweepState, maxDegree.
    by replace (1 + Z.to_nat (Z.min 20 (Z.of_nat (length points) - 1)))
      with (S (Nat.min 20 (length points - 1))) by lia.
Qed.

(** *** What the three variables hold after the degrees [1 .. k] *)

Lemma double_sweepState_inv k : sweepInv k (sweepState k).
Proof.
  induction k as [|k IH].
  - apply NoneYet; [done|]. intros d Hd. lia.
  - rewrite double_sweepState_S, double_tryDegree_attempt.
    destruct (attempt (S k)) as [|c1|c1 s1] eqn:Hatt.
    + (* skipped *)
      destruct IH as [Hst Hunfit|d c Hd Hbefore Hperf Hst
                     |d c s Hd Hsc Hst Hnum Hmin].
      * apply NoneYet; [done|]. intros d Hd.
        destruct (decide (d = S k)) as [->|]; [by left|apply Hunfit; lia].
      * apply (PerfectFirst _ _ _ _ _ _ d c); (done || lia).
      * apply (BestScored _ _ _ _ _ _ d c s); [lia|done..|].
        intros d' c' s' Hd' Hsc'.
        destruct (decide (d' = S k)) as [->|]; [congruence|].
        apply (Hmin d' c'); (done || lia).
    + (* a perfect fit *)
      destruct IH as [Hst Hunfit|d c Hd Hbefore Hperf Hst
                     |d c s Hd Hsc Hst Hnum Hmin].
      * rewrite Hst. simpl.
        apply (PerfectFirst _ _ _ _ _ _ (S k) c1); [lia| |done..].
        intros d' Hd'. apply Hunfit. lia.
      * rewrite Hst. simpl. rewrite bool_decide_eq_false_2 by lia.
        apply (PerfectFirst _ _ _ _ _ _ d c); (done || lia).
      * rewrite Hst. simpl. rewrite bool_decide_eq_false_2 by lia.
        apply (BestScored _ _ _ _ _ _ d c s); [lia|done..|].
        intros d' c' s' Hd' Hsc'.
        destruct (decide (d' = S k)) as [->|]; [congruence|].
        apply (Hmin d' c'); (done || lia).
    + (* a scored fit *)
      destruct IH as [Hst Hunfit|d c Hd Hbefore Hperf Hst
                     |d c s Hd Hsc Hst Hnum Hmin].
      * rewrite Hst. simpl.
        destruct (s1 <? infinity)%float eqn:Hlt.
        -- apply (BestScored _ _ _ _ _ _ (S k) c1 s1); [lia|done..|].
           intros d' c' s' Hd' Hsc'.
           destruct (decide (d' = S k)) as [->|].
           ++ rewrite Hatt in Hsc'. injection Hsc' as <- <-.
              split; [apply float_ltb_irrefl|lia].
           ++ destruct (Hunfit d') as [Hthrew|(c0 & s0 & Hsc0 & Hinf)];
                [lia|congruence|].
              rewrite Hsc' in Hsc0. injection Hsc0 as <- <-.
              split.
              ** destruct (s' <? s1)%float eqn:Hlt'; [|done].
                 rewrite <- Hinf. symmetry.
                 by apply (float_ltb_trans _ s1).
              ** intros ->. congruence.
        -- apply NoneYet; [done|]. intros d Hd.
           destruct (decide (d = S k)) as [->|]; [|apply Hunfit; lia].
           right. by exists c1, s1.
      * rewrite Hst. simpl. rewrite float_ltb_neg_infinity.
        apply (PerfectFirst _ _ _ _ _ _ d c); (done || lia).
      * rewrite Hst. simpl. destruct (s1 <? s)%float eqn:Hlt.
        -- apply (BestScored _ _ _ _ _ _ (S k) c1 s1); [lia|done..| |].
           { by apply (float_ltb_trans _ s). }
           intros d' c' s' Hd' Hsc'.
           destruct (decide (d' = S k)) as [->|].
           ++ rewrite Hatt in Hsc'. injection Hsc' as <- <-.
              split; [apply float_ltb_irrefl|lia].
           ++ destruct (Hmin d' c' s') as [Hle _]; [lia|done|].
              split.
              ** destruct (s' <? s1)%float eqn:Hlt'; [|done].
                 rewrite <- Hle. symmetry.
                 by apply (float_ltb_trans _ s1).
              ** intros ->. congruence.
        -- apply (BestScored _ _ _ _ _ _ d c s); [lia|done..|].
           intros d' c' s' Hd' Hsc'.
           destruct (decide (d' = S k)) as [->|].
           ++ rewrite Hatt in Hsc'. injection Hsc' as <- <-.
              split; [done|lia].
           ++ apply (Hmin d' c'); (done || lia).
Qed.

Lemma double_unfit_iff d :
  unfit d ↔
  regression d = Err SingularMatrixError ∨
  ∃ c, regression d = Ok c ∧ (rssOf c <=? 1e-10)%float = false ∧
       (is_nan (scoreOf d c) = true ∨ scoreOf d c = infinity).
Proof.
  unfold Double.unfit. rewrite double_attempt_Threw. split.
  - intros [He|(c & s & Hsc & Hinf)]; [by left|right].
    apply double_attempt_Scored in Hsc as (Hc & Hrss & ->).
    exists c. split; [done|]. split; [done|]. by apply float_ltb_infinity.
  - intros [He|(c & Hc & Hrss & Hinf)]; [by left|right].
    exists c, (scoreOf d c). split; [by apply double_attempt_Scored|].
    by apply float_ltb_infinity.
Qed.

(** Nothing has been accepted after the degrees [1 .. k] exactly when
    each of them threw or has a score that is not below [Infinity]. *)
Lemma double_sweepState_none k :
  Sweep.bestDegree (sweepState k) = (-1)%Z ↔ ∀ d, 1 ≤ d ≤ k → unfit d.
Proof.
  destruct (double_sweepState_inv k)
    as [Hst Hunfit|d c Hd Hbefore Hperf Hst|d c s Hd Hsc Hst Hnum Hmin].
  - by rewrite Hst.
  - rewrite Hst. simpl. split; [lia|]. intros Hall.
    destruct (Hall d Hd) as [Hthrew|(c0 & s0 & Hsc0 & _)]; congruence.
  - rewrite Hst. simpl. split; [lia|]. intros Hall.
    destruct (Hall d Hd) as [Hthrew|(c0 & s0 & Hsc0 & Hinf)]; congruence.
Qed.

Lemma double_no_model_iff :
  findBestFit = Err NoModelFoundError
  ↔ 2 ≤ length points ∧
    ∀ d, 1 ≤ d ≤ maxDegree (length points) →
         regression d = Err SingularMatrixError ∨
         ∃ c, regression d = Ok c ∧
              (rssOf c <=? 1e-10)%float = false ∧
              (is_nan (scoreOf d c) = true ∨ scoreOf d c = infinity).
Proof.
  rewrite double_findBestFitPolynomial_unfold.
  case_bool_decide as Hn; [split; [done|lia]|].
  cbv zeta. case_bool_decide as Hbest; split; try done.
  - intros _. split; [lia|]. intros d Hd.
    apply double_unfit_iff.
    by apply (proj1 (double_sweepState_none _) Hbest).
  - intros [_ Hall]. destruct Hbest. apply double_sweepState_none.
    intros d Hd. by apply double_unfit_iff, Hall.
Qed.

(** What is returned is the regression of the returned degree. *)
Lemma double_findBestFitPolynomial_Ok r :
  findBestFit = Ok r →
  ∃ d, bestDegree r = Z.of_nat d ∧
       1 ≤ d ≤ maxDegree (length points) ∧
       regression d = Ok (coefficients r).
Proof.
  rewrite double_findBestFitPolynomial_unfold.
  case_bool_decide; [done|]. simpl.
  case_bool_decide as Hbest; [done|]. intros [= <-]. simpl.
  destruct (double_sweepState_inv (maxDegree (length points)))
    as [Hst _|d c Hd _ Hperf Hst|d c s Hd Hsc Hst _ _].
  - by rewrite Hst in Hbest.
  - rewrite Hst. simpl. exists d. split; [done|]. split; [done|].
    by apply double_attempt_Perfect in Hperf as [? _].
  - rewrite Hst. simpl. exists d. split; [done|]. split; [done|].
    by apply double_attempt_Scored in Hsc as [? _].
Qed.

Lemma double_findBestFitPolynomial_Err e :
  findBestFit = Err e →
  length points < 2 ∧ e = InsufficientDataError
  ∨ 2 ≤ length points ∧ e = NoModelFoundError.
Proof.
  rewrite double_findBestFitPolynomial_unfold.
  case_bool_decide as Hn; [intros [= <-]; by left|]. simpl.
  case_bool_decide as Hbest; [|done]. intros [= <-]. right.
  split; [lia|done].
Qed.

(** C5: the sweep throws the insufficient-data error exactly for fewer
    than two points, which is when the range of degrees
    [1 .. min(20, n-1)] is empty; otherwise what it returns or throws is
    read off the three variables after the body of the loop has run for
    the degrees [1, 2, ..., min(20, n-1)], in this order, from their
    initial values; and in automatic mode [handleTrain] rejects exactly
    the inputs with fewer than two points with a message of its own and
    hands the others to the sweep, so that the insufficient-data error
    never comes out of it. *)
Theorem findBestFitPolynomial_candidates :
  let n := length points in
  (findBestFit = Err InsufficientDataError ↔ n < 2) ∧
  (n < 2 ↔ seq 1 (Nat.min 20 (n - 1)) = []) ∧
  (2 ≤ n →
   let st := fold_left try (seq 1 (Nat.min 20 (n - 1))) Sweep.initial in
   findBestFit =
     if bool_decide (Sweep.bestDegree st = -1)%Z then Err NoModelFoundError
     else Ok {| bestDegree := Sweep.bestDegree st;
                coefficients := Sweep.bestCoefficients st |}) ∧
  (∀ selectedDegree,
     handleTrain pow log points selectedDegree true method
     = Err AutoModeError ↔ n < 2) ∧
  (∀ selectedDegree,
     2 ≤ n →
     handleTrain pow log points selectedDegree true method
     = (result <- findBestFit ;;
        Ok (coefficients result, bestDegree result))) ∧
  (∀ selectedDegree,
     handleTrain pow log points selectedDegree true method
     ≠ Err InsufficientDataError).
Proof.
  intros n.
  assert (∀ selectedDegree,
     2 ≤ n →
     handleTrain pow log points selectedDegree true method
     = (result <- findBestFit ;;
        Ok (coefficients result, bestDegree result))) as Hsweep.
  { intros selectedDegree Hn. unfold handleTrain.
    by rewrite bool_decide_eq_false_2 by (fold n; lia). }
  assert (∀ selectedDegree e,
     2 ≤ n →
     handleTrain pow log points selectedDegree true method = Err e →
     e = NoModelFoundError) as Herr.
  { intros selectedDegree e Hn. rewrite Hsweep by done.
    destruct findBestFit as [r|e'] eqn:Hfit; [done|].
    simpl. intros [= <-].
    destruct (double_findBestFitPolynomial_Err _ Hfit) as [[? _]|[_ ?]];
      [unfold n in Hn; lia|done]. }
  split; [|split; [|split; [|split; [|split; [done|]]]]].
  - rewrite double_findBestFitPolynomial_unfold. fold n.
    case_bool_decide as Hn; [done|].
    cbv zeta. split; [|done]. by case_bool_decide.
  - split.
    + intros Hn. by replace (Nat.min 20 (n - 1)) with 0 by lia.
    + intros Hseq. destruct (Nat.min 20 (n - 1)) eqn:Hmin; [lia|done].
  - intros Hn. rewrite double_findBestFitPolynomial_unfold. fold n.
    rewrite bool_decide_eq_false_2 by lia.
    unfold Double.sweepState, maxDegree, range. fold n.
    by replace (S (Nat.min 20 (n - 1)) - 1) with (Nat.min 20 (n - 1)) by lia.
  - intros selectedDegree. split.
    + intros He. destruct (decide (n < 2)) as [|Hn]; [done|].
      by apply Herr in He; [|lia].
    + intros Hn. unfold handleTrain. by rewrite bool_decide_eq_true_2.
  - intros selectedDegree He.
    destruct (decide (n < 2)) as [Hn|Hn].
    + unfold handleTrain in He. by rewrite bool_decide_eq_true_2 in He.
    + by apply Herr in He; [|lia].
Qed.

(** C6, as the code has it on doubles: a degree whose regression throws
    leaves the three variables as they are and the loop goes on with the
    next degree; and the sweep throws the no-model error exactly when
    there are at least two points and no degree of [1 .. min(20, n-1)] is
    accepted: for each of them the regression throws the singular-matrix
    error, or it returns a fit that is not perfect and whose score is NaN
    or [Infinity].  So the error is thrown whenever every degree throws,
    but not only then. *)
Theorem findBestFitPolynomial_skips_singular :
  let n := length points in
  (∀ st d e rest,
     regression d = Err e →
     e = SingularMatrixError ∧
     try st d = st ∧
     fold_left try (d :: rest) st = fold_left try rest st) ∧
  (findBestFit = Err NoModelFoundError
   ↔ 2 ≤ n ∧
     ∀ d, 1 ≤ d ≤ maxDegree n →
          regression d = Err SingularMatrixError ∨
          ∃ c, regression d = Ok c ∧
               (rssOf c <=? 1e-10)%float = false ∧
               (is_nan (scoreOf d c) = true ∨ scoreOf d c = infinity)) ∧
  ((2 ≤ n ∧ ∀ d, 1 ≤ d ≤ maxDegree n →
                 regression d = Err SingularMatrixError) →
   findBestFit = Err NoModelFoundError).
Proof.
  intros n. split; [|split].
  - intros st d e rest Hcalc.
    assert (try st d = st) as Hskip.
    { unfold tryDegree. by rewrite Hcalc. }
    split; [by apply (double_regression_Err pow points d)|].
    split; [done|]. simpl. by rewrite Hskip.
  - apply double_no_model_iff.
  - intros [Hn Hall]. apply double_no_model_iff. split; [done|].
    intros d Hd. left. by apply Hall.
Qed.

(** C8: a fit that is not perfect is scored [n ln(rss/n) + 2k] under AIC
    and [n ln(rss/n) + k ln n] under BIC, with [k = degree + 1] and [rss]
    the sum over the points of the squared differences between [y] and
    the value of the fit; the model the sweep returns carries the least
    score: the final [bestScore] is [-Infinity] for an accepted perfect
    fit and the score of the returned degree otherwise, no scored degree
    of the sweep has a score below it, and among the scored degrees with
    exactly this score the returned one is the lowest. *)
Theorem findBestFitPolynomial_minimum_score r :
  findBestFit = Ok r →
  let n := length points in
  let rss c :=
    fold_left
      (λ rss p, rss + pow (y p - evaluatePolynomial pow c (x p)) 2)%float
      points 0%float in
  let score d c :=
    match method with
    | AIC => (ofNat n * log (rss c / ofNat n) + 2 * ofNat (d + 1))%float
    | BIC => (ofNat n * log (rss c / ofNat n)
              + ofNat (d + 1) * log (ofNat n))%float
    end in
  ∃ d best,
    bestDegree r = Z.of_nat d ∧
    1 ≤ d ≤ maxDegree n ∧
    regression d = Ok (coefficients r) ∧
    sweepState (maxDegree n)
      = Sweep.mkState best (Z.of_nat d) (coefficients r) ∧
    ((rss (coefficients r) <=? 1e-10)%float = true ∧ best = neg_infinity
     ∨ (rss (coefficients r) <=? 1e-10)%float = false
       ∧ best = score d (coefficients r)
       ∧ (best <? infinity)%float = true) ∧
    ∀ d' c',
      1 ≤ d' ≤ maxDegree n →
      regression d' = Ok c' →
      (rss c' <=? 1e-10)%float = false →
      (score d' c' <? best)%float = false ∧
      (score d' c' = best → d ≤ d').
Proof.
  intros Hr n rss score.
  assert (∀ d c, score d c = scoreOf d c) as Hscore
    by (intros d c; unfold criterion; by destruct method).
  rewrite double_findBestFitPolynomial_unfold in Hr. fold n in Hr.
  case_bool_decide as Hn; [done|]. cbv zeta in Hr.
  case_bool_decide as Hbest; [done|]. injection Hr as <-. simpl.
  destruct (double_sweepState_inv (maxDegree n))
    as [Hst Hunfit|d c Hd Hbefore Hperf Hst|d c s Hd Hsc Hst Hnum Hmin].
  - by rewrite Hst in Hbest.
  - apply double_attempt_Perfect in Hperf as [Hcalc Hrss].
    exists d, neg_infinity. rewrite Hst. simpl.
    split; [done|]. split; [done|]. split; [done|]. split; [done|].
    split; [by left|]. intros d' c' Hd' Hcalc' Hrss'.
    split; [apply float_ltb_neg_infinity|].
    rewrite Hscore. intros Hinf.
    destruct (decide (d ≤ d')) as [|Hlt]; [done|].
    destruct (Hbefore d') as [Hthrew|(c0 & s0 & Hsc0 & Hbelow)]; [lia|..].
    + apply double_attempt_Threw in Hthrew. congruence.
    + apply double_attempt_Scored in Hsc0 as (Hc0 & _ & ->).
      assert (c0 = c') as -> by congruence.
      rewrite Hinf in Hbelow. by vm_compute in Hbelow.
  - pose proof Hsc as Hsc0.
    apply double_attempt_Scored in Hsc0 as (Hcalc & Hrss & Hs).
    exists d, s. rewrite Hst. simpl.
    split; [done|]. split; [done|]. split; [done|]. split; [done|].
    split; [right; by rewrite Hscore, <- Hs|].
    intros d' c' Hd' Hcalc' Hrss'. rewrite Hscore.
    apply (Hmin d' c'); [done|]. by apply double_attempt_Scored.
Qed.
End DoubleSweep.

(** ** handleTrain: what reaches the view *)

Section DoubleTrain.
Import Double.
Variable pow : float → nat → float.
Variable log : float → float.

(** X13: what [handleTrain] puts into the view state after a successful
    run is the regression of the displayed degree on the parsed points:
    [degree + 1] coefficients, with a degree below the number of points,
    between 1 and 20 in auto mode and the selected one otherwise. *)
Theorem handleTrain_view_state parsedPoints selectedDegree isAuto
    autoFitMethod calculatedCoefficients finalDegree :
  handleTrain pow log parsedPoints selectedDegree isAuto autoFitMethod
    = Ok (calculatedCoefficients, finalDegree) →
  ∃ degree,
    finalDegree = Z.of_nat degree ∧
    degree < length parsedPoints ∧
    (if isAuto then 1 ≤ degree ≤ 20 else degree = selectedDegree) ∧
    calculatePolynomialRegression pow parsedPoints degree
      = Ok calculatedCoefficients ∧
    length calculatedCoefficients = degree + 1.
Proof.
  intros Htrain.
  assert (∃ degree,
            finalDegree = Z.of_nat degree ∧
            degree < length parsedPoints ∧
            (if isAuto then 1 ≤ degree ≤ 20 else degree = selectedDegree) ∧
            calculatePolynomialRegression pow parsedPoints degree
              = Ok calculatedCoefficients) as (degree & Hd & Hlt & Hmode & Hfit).
  { unfold handleTrain in Htrain. destruct isAuto.
    - case_bool_decide; [done|].
      destruct (findBestFitPolynomial pow log parsedPoints autoFitMethod)
        as [r|e] eqn:Hbest; [|done].
      simpl in Htrain. injection Htrain as <- <-.
      destruct (double_findBestFitPolynomial_Ok pow log _ _ _ Hbest)
        as (d & Hd & Hr & Hc).
      exists d. unfold maxDegree in Hr. repeat split; (done || lia).
    - case_bool_decide; [done|].
      destruct (calculatePolynomialRegression pow parsedPoints selectedDegree)
        as [c|e] eqn:Hc; [|done].
      simpl in Htrain. injection Htrain as <- <-.
      exists selectedDegree. repeat split; (done || lia). }
  exists degree. repeat split; try done.
  by apply (double_regression_length pow parsedPoints).
Qed.

(** X14: the messages [handleTrain] can show from the parsed points on.
    In auto mode: the two-points message for fewer than 2 points, else the
    no-model message, and this exactly when no degree of the sweep is
    accepted: each makes the regression throw, or has a fit that is not
    perfect and a score that is NaN or [Infinity].  Otherwise: the
    message that names the degree for fewer than [selectedDegree + 1]
    points, else the singular-matrix message of the regression.  The
    insufficient-data message of [findBestFitPolynomial] is never shown. *)
Theorem handleTrain_messages parsedPoints selectedDegree autoFitMethod :
  let n := length parsedPoints in
  (∀ e, handleTrain pow log parsedPoints selectedDegree true autoFitMethod
        = Err e
        ↔ n < 2 ∧ e = AutoModeError
          ∨ 2 ≤ n ∧ e = NoModelFoundError ∧
            ∀ d, 1 ≤ d ≤ maxDegree n →
              calculatePolynomialRegression pow parsedPoints d
              = Err SingularMatrixError ∨
              ∃ c, calculatePolynomialRegression pow parsedPoints d = Ok c ∧
                   let rss := residualSumOfSquares pow parsedPoints c in
                   let score := criterion log autoFitMethod n rss d in
                   (rss <=? 1e-10)%float = false ∧
                   (is_nan score = true ∨ score = infinity)) ∧
  (∀ e, handleTrain pow log parsedPoints selectedDegree false autoFitMethod
        = Err e
        ↔ n < selectedDegree + 1 ∧ e = ExplicitModeError selectedDegree
          ∨ selectedDegree + 1 ≤ n ∧ e = SingularMatrixError ∧
            calculatePolynomialRegression pow parsedPoints selectedDegree
            = Err SingularMatrixError) ∧
  (∀ isAuto,
     handleTrain pow log parsedPoints selectedDegree isAuto autoFitMethod
     ≠ Err InsufficientDataError).
Proof.
  intros n.
  assert (∀ e, handleTrain pow log parsedPoints selectedDegree true
                 autoFitMethod = Err e
        ↔ n < 2 ∧ e = AutoModeError
          ∨ 2 ≤ n ∧ e = NoModelFoundError ∧
            ∀ d, 1 ≤ d ≤ maxDegree n →
              calculatePolynomialRegression pow parsedPoints d
              = Err SingularMatrixError ∨
              ∃ c, calculatePolynomialRegression pow parsedPoints d = Ok c ∧
                   let rss := residualSumOfSquares pow parsedPoints c in
                   let score := criterion log autoFitMethod n rss d in
                   (rss <=? 1e-10)%float = false ∧
                   (is_nan score = true ∨ score = infinity)) as Hauto.
  { intros e. unfold handleTrain. case_bool_decide as Hn.
    - split.
      + intros [= <-]. left. by split.
      + intros [[_ ->]|[? _]]; [done|]. unfold n in *. lia.
    - destruct (findBestFitPolynomial pow log parsedPoints autoFitMethod)
        as [r|e'] eqn:Hbest; simpl.
      + split; [done|]. intros [[? _]|(Hge & _ & Hall)]; [done|].
        assert (findBestFitPolynomial pow log parsedPoints autoFitMethod
                = Err NoModelFoundError) as Hnone
          by (apply double_no_model_iff; by split).
        congruence.
      + destruct (double_findBestFitPolynomial_Err pow log _ _ _ Hbest)
          as [[? _]|(Hge & ->)]; [done|].
        apply double_no_model_iff in Hbest as [_ Hall].
        split.
        * intros [= <-]. right. by repeat split.
        * by intros [[? _]|(_ & -> & _)]. }
  assert (∀ e, handleTrain pow log parsedPoints selectedDegree false
                 autoFitMethod = Err e
        ↔ n < selectedDegree + 1 ∧ e = ExplicitModeError selectedDegree
          ∨ selectedDegree + 1 ≤ n ∧ e = SingularMatrixError ∧
            calculatePolynomialRegression pow parsedPoints selectedDegree
            = Err SingularMatrixError) as Hexplicit.
  { intros e. unfold handleTrain. case_bool_decide as Hn.
    - split.
      + intros [= <-]. left. by split.
      + intros [[_ ->]|[? _]]; [done|]. unfold n in *. lia.
    - destruct (calculatePolynomialRegression pow parsedPoints selectedDegree)
        as [c|e'] eqn:Hc; simpl.
      + split; [done|]. by intros [[? _]|(_ & _ & ?)].
      + pose proof (double_regression_Err _ _ _ _ Hc) as ->.
        split.
        * intros [= <-]. right. unfold n. repeat split; (done || lia).
        * by intros [[? _]|(_ & -> & _)]. }
  split; [done|]. split; [done|].
  intros [] He.
  - apply Hauto in He as [[_ He]|(_ & He & _)]; discriminate He.
  - apply Hexplicit in He as [[_ He]|(_ & He & _)]; discriminate He.
Qed.
End DoubleTrain.

(** ** Fits of degree 1 for every [Math.pow] *)

Section DoubleLibrary.
Import Double.
Variable pow : float → nat → float.

Lemma fold_left_same {A B} (f g : A → B → A) (l : list B) (a : A) :
  (∀ a b, f a b = g a b) → fold_left f l a = fold_left g l a.
Proof.
  intros Hfg. revert a. induction l as [|b l IH]; intros a; [done|].
  simpl. by rewrite Hfg, IH.
Qed.

Lemma double_power_upTo2 : powersUpTo2 power.
Proof. by repeat split. Qed.

Lemma double_designMatrix_line points :
  powersUpTo2 pow →
  designMatrix pow points 2 = designMatrix power points 2.
Proof.
  intros (H0 & H1 & _). unfold designMatrix. apply map_ext. intros p.
  simpl. by rewrite H0, H1.
Qed.

(** The regression of degree 1 takes [Math.pow] at the exponents 0 and 1. *)
Lemma double_regression_line points :
  powersUpTo2 pow →
  calculatePolynomialRegression pow points 1
  = calculatePolynomialRegression power points 1.
Proof.
  intros Hpow. unfold calculatePolynomialRegression. cbv zeta.
  change (1 + 1) with 2. by rewrite (double_designMatrix_line points Hpow).
Qed.

(** The residual sum of a line takes it at the exponents 0, 1 and 2. *)
Lemma double_rss_line points c0 c1 :
  powersUpTo2 pow →
  residualSumOfSquares pow points [c0; c1]
  = residualSumOfSquares power points [c0; c1].
Proof.
  intros (H0 & H1 & H2). unfold residualSumOfSquares.
  apply fold_left_same. intros rss p.
  unfold evaluatePolynomial. simpl. by rewrite H0, H1, H2.
Qed.
End DoubleLibrary.

(** ** Runs on doubles *)

Section DoubleRuns.
Import Double.

(** No turn [i < n] of a concrete run has a pivot below the tolerance. *)
Ltac no_small_double_pivot :=
  let i := fresh "i" in
  let Hi := fresh "Hi" in
  let m := fresh "m" in
  let Hel := fresh "Hel" in
  let Htol := fresh "Htol" in
  intros i Hi (m & Hel & Htol); simpl in Hi;
  repeat (destruct i as [|i]; [|try lia]);
  vm_compute in Hel; injection Hel as <-; vm_compute in Htol; discriminate.

Lemma double_regular_square : square regularA.
Proof. repeat constructor. Qed.

Lemma solveLinearSystem_reduces_witness :
  (square regularA ∧ length regularB = length regularA ∧
   ∀ i, i < length regularA → ¬ belowToleranceAt regularA regularB i) ∧
  solveLinearSystem regularA regularB = Ok [1; 3]%float ∧
  ∃ xs m,
    solveLinearSystem regularA regularB = Ok xs ∧
    length xs = 2 ∧
    eliminated regularA regularB 2 = Ok m ∧
    xs = lastColumn 2 m ∧
    (∀ i, i < 2 → entry m i i = 1%float).
Proof.
  assert (∀ i, i < length regularA → ¬ belowToleranceAt regularA regularB i)
    as H by no_small_double_pivot.
  split; [split; [exact double_regular_square|split; [reflexivity|exact H]]|].
  split; [by vm_compute|].
  destruct (solveLinearSystem_reduces regularA regularB
              double_regular_square eq_refl H)
    as (xs & m & Hxs & Hlen & Hm & Hlast & Hdiag & _).
  exists xs, m. repeat split; assumption.
Defined.

(** The system [49 x = 1] is solved by the double nearest to [1/49], and
    49 times this double is not 1.  The matrix with the rows
    [(123456789, 1e9)] and three times that is singular, and no numbers
    solve it with the right-hand side [(1, 2)]; its second pivot is not 0
    after rounding but about [-1.2e-7], above the tolerance in absolute
    value, and a vector is returned. *)
Lemma solveLinearSystem_rounded_singular :
  (square [[49%float]] ∧ length [1%float] = 1 ∧
   (∀ i, i < 1 → ¬ belowToleranceAt [[49%float]] [1%float] i) ∧
   solveLinearSystem [[49]]%float [1]%float = Ok [0.02040816326530612]%float ∧
   matVec [[49]]%float [0.02040816326530612]%float
     = [0.9999999999999999]%float ∧
   matVec [[49]]%float [0.02040816326530612]%float ≠ [1]%float) ∧
  (square proportionalA ∧ length proportionalB = length proportionalA ∧
   (∀ i, i < length proportionalA →
         ¬ belowToleranceAt proportionalA proportionalB i) ∧
   solveLinearSystem proportionalA proportionalB
     = Ok [22649241.80610811; -2796202.666666667]%float ∧
   (∃ m, eliminated proportionalA proportionalB 1 = Ok m ∧
         selectedPivot 2 m 1 = (-1.1920928955078125e-07)%float) ∧
   ∀ x1 x2 : Q,
     ¬ (123456789 * x1 + 1000000000 * x2 == 1 ∧
        370370367 * x1 + 3000000000 * x2 == 2)%Q).
Proof.
  split.
  - split; [repeat constructor|]. split; [done|].
    split; [no_small_double_pivot|]. split; [by vm_compute|].
    split; [by vm_compute|].
    intros H. apply (f_equal (λ l, (default 0 (head l) <? 1)%float)) in H.
    by vm_compute in H.
  - split; [repeat constructor|]. split; [done|].
    split; [no_small_double_pivot|]. split; [by vm_compute|].
    split; [eexists; split; by vm_compute|].
    intros x1 x2 [H1 H2].
    assert (3 * (123456789 * x1 + 1000000000 * x2)
            == 370370367 * x1 + 3000000000 * x2)%Q as H3 by ring.
    rewrite H1, H2 in H3. by vm_compute in H3.
Qed.

(** Two points with distinct abscissas and degree 1, for every [Math.pow]
    whose powers 0, 1 and 2 are [1], [x] and [x * x].  For the abscissas 0
    and 0.000001 the second pivot of the normal equations is [5e-13], and
    the regression throws.  For the abscissas 50000000 and 50000001 it
    returns a line whose residual sum of squares is above 5, where the line
    through the two points has 0. *)
Lemma calculatePolynomialRegression_not_least_squares :
  powersUpTo2 power ∧
  ∀ pow, powersUpTo2 pow →
    (length closePoints = 1 + 1 ∧ (0 <? 0.000001)%float = true ∧
     calculatePolynomialRegression pow closePoints 1
       = Err SingularMatrixError) ∧
    (length farPoints = 1 + 1 ∧ (50000000 <? 50000001)%float = true ∧
     ∃ c, calculatePolynomialRegression pow farPoints 1 = Ok c ∧
          c = [-335544316.31618232; 6.7108863592147827]%float ∧
          (5 <? residualSumOfSquares pow farPoints c)%float = true ∧
          residualSumOfSquares pow farPoints [-500000000; 10]%float
            = 0%float).
Proof.
  split; [exact double_power_upTo2|]. intros pow Hpow.
  rewrite !(double_regression_line pow _ Hpow).
  split; [by vm_compute|].
  split; [done|]. split; [by vm_compute|].
  eexists. split; [by vm_compute|]. split; [done|].
  rewrite !(double_rss_line pow _ _ _ Hpow). by vm_compute.
Qed.

(** The points (0, 0) and (1e200, 1), for every [Math.pow] with these
    powers and every [Math.log] that maps NaN to NaN: the square of the
    second abscissa is [Infinity], the regression of degree 1, the only
    degree of the sweep, returns [NaN, 0] without throwing, the residual
    sum and the score are NaN, and the sweep throws the no-model error. *)
Lemma findBestFitPolynomial_no_model_without_throw :
  (powersUpTo2 power ∧ logOfNaN anyLog) ∧
  ∀ pow log method, powersUpTo2 pow → logOfNaN log →
    length hugePoints = 2 ∧
    maxDegree (length hugePoints) = 1 ∧
    calculatePolynomialRegression pow hugePoints 1 = Ok [nan; 0%float] ∧
    residualSumOfSquares pow hugePoints [nan; 0%float] = nan ∧
    criterion log method (length hugePoints) nan 1 = nan ∧
    findBestFitPolynomial pow log hugePoints method = Err NoModelFoundError ∧
    ¬ (∀ d, 1 ≤ d ≤ maxDegree (length hugePoints) →
            calculatePolynomialRegression pow hugePoints d
            = Err SingularMatrixError).
Proof.
  split; [split; [exact double_power_upTo2|done]|].
  intros pow log method Hpow Hlog.
  assert (calculatePolynomialRegression pow hugePoints 1 = Ok [nan; 0%float])
    as Hfit by (rewrite (double_regression_line pow _ Hpow); by vm_compute).
  assert (residualSumOfSquares pow hugePoints [nan; 0%float] = nan) as Hrss
    by (rewrite (double_rss_line pow _ _ _ Hpow); by vm_compute).
  assert (criterion log method (length hugePoints) nan 1 = nan) as Hscore.
  { unfold criterion. change (nan / ofNat (length hugePoints))%float with nan.
    rewrite Hlog.
    change (ofNat (length hugePoints) * nan)%float with nan.
    destruct method; apply float_add_nan. }
  split; [done|]. split; [done|]. split; [done|]. split; [done|].
  split; [done|]. split.
  - apply double_no_model_iff. split; [simpl; lia|].
    intros d Hd. change (maxDegree (length hugePoints)) with 1 in Hd.
    assert (d = 1) as -> by lia.
    right. exists [nan; 0%float]. split; [done|].
    rewrite Hrss, Hscore. split; [done|]. by left.
  - intros H. specialize (H 1 ltac:(by vm_compute)). congruence.
Qed.

(** The four points of [wave], with the identity in the place of
    [Math.log]: the degrees 1 and 2 are scored, with the residual sums 24
    and 20, and degree 3 is a perfect fit that comes too late.  Under AIC
    the scores are 28 and 26 and degree 2 is returned; under BIC they are
    32 and 32 and the lower degree 1 is returned. *)
Lemma findBestFitPolynomial_minimum_score_witness :
  let fit d := fitOf (calculatePolynomialRegression power wave d) in
  let rss d := residualSumOfSquares power wave (fit d) in
  (maxDegree (length wave) = 3 ∧
   (∀ d, 1 ≤ d ≤ 3 → calculatePolynomialRegression power wave d = Ok (fit d)) ∧
   rss 1 = 24%float ∧ rss 2 = 20%float ∧ (rss 3%nat <=? 1e-10)%float = true) ∧
  (criterion anyLog AIC 4 (rss 1) 1 = 28%float ∧
   criterion anyLog AIC 4 (rss 2) 2 = 26%float ∧
   findBestFitPolynomial power anyLog wave AIC
     = Ok {| bestDegree := 2; coefficients := fit 2 |} ∧
   ∀ d' c', 1 ≤ d' ≤ 3 →
            calculatePolynomialRegression power wave d' = Ok c' →
            (residualSumOfSquares power wave c' <=? 1e-10)%float = false →
            (criterion anyLog AIC 4 (residualSumOfSquares power wave c') d'
             <? 26)%float = false) ∧
  (criterion anyLog BIC 4 (rss 1) 1 = 32%float ∧
   criterion anyLog BIC 4 (rss 2) 2 = 32%float ∧
   findBestFitPolynomial power anyLog wave BIC
     = Ok {| bestDegree := 1; coefficients := fit 1 |} ∧
   ∀ d' c', 1 ≤ d' ≤ 3 →
            calculatePolynomialRegression power wave d' = Ok c' →
            (residualSumOfSquares power wave c' <=? 1e-10)%float = false →
            criterion anyLog BIC 4 (residualSumOfSquares power wave c') d'
              = 32%float →
            1 ≤ d').
Proof.
  intros fit rss.
  assert (findBestFitPolynomial power anyLog wave AIC
          = Ok {| bestDegree := 2; coefficients := fit 2 |}) as HA
    by (vm_compute; reflexivity).
  assert (findBestFitPolynomial power anyLog wave BIC
          = Ok {| bestDegree := 1; coefficients := fit 1 |}) as HB
    by (vm_compute; reflexivity).
  split; [|split].
  - split; [reflexivity|]. split; [|vm_compute; repeat split; reflexivity].
    intros d Hd.
    destruct d as [|[|[|[|d]]]]; try lia; vm_compute; reflexivity.
  - split; [vm_compute; reflexivity|]. split; [vm_compute; reflexivity|].
    split; [exact HA|].
    destruct (findBestFitPolynomial_minimum_score power anyLog wave AIC _ HA)
      as (d & best & _ & _ & _ & Hst & _ & Hmin).
    vm_compute in Hst. injection Hst as <- _.
    intros d' c' Hd' Hc' Hrss.
    exact (proj1 (Hmin d' c' Hd' Hc' Hrss)).
  - split; [vm_compute; reflexivity|]. split; [vm_compute; reflexivity|].
    split; [exact HB|].
    destruct (findBestFitPolynomial_minimum_score power anyLog wave BIC _ HB)
      as (d & best & Hd & _ & _ & Hst & _ & Hmin).
    vm_compute in Hst. injection Hst as <- _.
    simpl in Hd. assert (d = 1) as -> by lia.
    intros d' c' Hd' Hc' Hrss.
    exact (proj2 (Hmin d' c' Hd' Hc' Hrss)).
Defined.

Lemma handleTrain_view_state_witness :
  handleTrain power anyLog wave 0 true AIC
    = Ok ([-1.2500000000000002; 0; 0.25000000000000006]%float, 2%Z) ∧
  ∃ degree,
    2%Z = Z.of_nat degree ∧
    degree < length wave ∧
    1 ≤ degree ≤ 20 ∧
    calculatePolynomialRegression power wave degree
      = Ok [-1.2500000000000002; 0; 0.25000000000000006]%float.
Proof.
  assert (handleTrain power anyLog wave 0 true AIC
    = Ok ([-1.2500000000000002; 0; 0.25000000000000006]%float, 2%Z)) as H
    by (vm_compute; reflexivity).
  split; [exact H|].
  destruct (handleTrain_view_state power anyLog wave 0 true AIC _ _ H)
    as (degree & Hd & Hlt & Hmode & Hfit & _).
  exists degree. exact (conj Hd (conj Hlt (conj Hmode Hfit))).
Defined.
End DoubleRuns.
